(** * python-asyncio notebook: the query builder and the concurrent fetch

    A shallow embedding of the code cells of [python_asyncio.ipynb]:
    [gen_query_url], [fetch_tweets_coroutine], [fetch_tweets_fancy],
    [collect_queries] and the cells that drive them.

    Python [str] values are [string]s (a character is a code point below
    256), Python [int]s are [Z], JSON bodies are trees of type [json].
    An [async def] is a resumable computation of type [coro]: a tree whose
    inner nodes are the points where the function awaits the network.  The
    event loop is a function of an explicit schedule, the list of the
    positions of the tasks in the order in which their network events
    arrive. *)

From Stdlib Require Import List String Ascii ZArith Lia Bool Arith Permutation.
From Stdlib Require Import Numbers.DecimalString Numbers.DecimalZ.
Import ListNotations.

Local Open Scope string_scope.
Local Open Scope list_scope.

Set Implicit Arguments.
Set Warnings "-register-all".

(** ** Python's string builtins *)

Module PyStr.

(** [str.isspace] on one character, for code points below 256: the
    ASCII controls 9..13 and 28..31, the space, NEL and the
    non-breaking space. *)
Definition isspace (c : ascii) : bool :=
  let n := nat_of_ascii c in
  (((9 <=? n) && (n <=? 13)) || ((28 <=? n) && (n <=? 32))
   || (n =? 133) || (n =? 160))%nat.

(** [s.split()] with no separator: runs of whitespace separate the
    words, leading and trailing whitespace is dropped, no word is
    empty.  [word] is the word being read. *)
Fixpoint split_from (word s : string) : list string :=
  match s with
  | EmptyString => if (String.length word =? 0)%nat then [] else [word]
  | String c rest =>
      if isspace c
      then if (String.length word =? 0)%nat
           then split_from "" rest
           else word :: split_from "" rest
      else split_from (word ++ String c "") rest
  end.

Definition split (s : string) : list string := split_from "" s.

(** [sep.join(items)] *)
Fixpoint join (sep : string) (items : list string) : string :=
  match items with
  | [] => ""
  | [x] => x
  | x :: rest => x ++ sep ++ join sep rest
  end.

(** [str(n)] for an [int]: the decimal digits, after a minus sign when
    [n] is negative. *)
Definition str_int (n : Z) : string := NilZero.string_of_int (Z.to_int n).

(** [template.format(arg)] for a template with one [{}] field and no
    other brace: the field is replaced by [str(arg)]. *)
Fixpoint format (template : string) (arg : string) : string :=
  match template with
  | EmptyString => ""
  | String "{" (String "}" rest) => arg ++ rest
  | String c rest => String c (format rest arg)
  end.

(** All characters of a string satisfy a test. *)
Fixpoint forallb_str (p : ascii -> bool) (s : string) : bool :=
  match s with
  | EmptyString => true
  | String c rest => p c && forallb_str p rest
  end.

End PyStr.

(** ** The query builder *)

(** The [terms] argument: [isinstance(terms, str)] tells a single string
    from a sequence of strings. *)
Inductive terms_arg : Type :=
| TermStr (s : string)
| TermSeq (l : list string).

(** [def gen_query_url(url, terms, max_results=100)] *)
Definition gen_query_url (url : string) (terms : terms_arg) (max_results : Z)
  : string :=
  let terms :=
    match terms with
    | TermStr s => PyStr.split s
    | TermSeq l => l
    end in
  PyStr.join "" [url;
                 "query=";
                 PyStr.join "%20" terms;
                 PyStr.format "&maxResults={}" (PyStr.str_int max_results)].

Definition default_max_results : Z := 100.

(** The URL of the first cells. *)
Definition GNIP_BASE_URL : string :=
  "https://gnip-api.twitter.com/search/30day/accounts/shendrickson/peabody.json?".

(** The cell [query = gen_query_url(GNIP_BASE_URL, ["just", "bought", "a", "house"])] *)
Definition query : string :=
  gen_query_url GNIP_BASE_URL (TermSeq ["just"; "bought"; "a"; "house"])
    default_max_results.

(** [formed_query = partial(gen_query_url, url=GNIP_BASE_URL, max_results=100)]
    and the queries of the batch. *)
Definition formed_query (terms : terms_arg) : string :=
  gen_query_url GNIP_BASE_URL terms 100.

Definition queries : list string :=
  map (fun i => formed_query (TermSeq [i]))
      ["eclipse"; "nuclear"; "korea"; "cats"; "ai"; "memes"].


(** ** Python values, exceptions and results *)

(** A parsed JSON body.  [JDict] holds the items of the parsed [dict], in
    their order; [JFloat] keeps the literal, which the code never reads. *)
Inductive json : Type :=
| JNull
| JBool (b : bool)
| JInt (n : Z)
| JFloat (literal : string)
| JStr (s : string)
| JList (items : list json)
| JDict (items : list (string * json)).

(** The exceptions that reach the code of the notebook. *)
Inductive exn : Type :=
| ClientError (detail : string)      (* aiohttp: connection refused, timeout, ... *)
| JSONDecodeError (detail : string)  (* [response.json()] on a body that is not JSON *)
| KeyError (key : string)
| TypeError (detail : string)
| NotATweetError (detail : string).  (* tweet_parser: [Tweet(t)] on a malformed record *)

(** The outcome of a Python expression: a value, or a raised exception. *)
Inductive result (A : Type) : Type :=
| Ok (a : A)
| Raised (e : exn).

Arguments Raised {A} e.

Definition result_bind {A B : Type} (r : result A) (f : A -> result B) : result B :=
  match r with
  | Ok a => f a
  | Raised e => Raised e
  end.

(** [d[key]] on the items of a [dict]. *)
Fixpoint dict_get (key : string) (items : list (string * json)) : option json :=
  match items with
  | [] => None
  | (k, v) :: rest => if String.eqb k key then Some v else dict_get key rest
  end.

(** [v[key]] with a string key. *)
Definition getitem (v : json) (key : string) : result json :=
  match v with
  | JDict items =>
      match dict_get key items with
      | Some x => Ok x
      | None => Raised (KeyError key)
      end
  | JList _ => Raised (TypeError "list indices must be integers or slices, not str")
  | JStr _ => Raised (TypeError "string indices must be integers")
  | _ => Raised (TypeError "object is not subscriptable")
  end.

(** The elements that [for t in v] goes through. *)
Definition iterate (v : json) : result (list json) :=
  match v with
  | JList items => Ok items
  | JDict items => Ok (map (fun kv => JStr (fst kv)) items)
  | JStr s => Ok (map (fun c => JStr (String c "")) (list_ascii_of_string s))
  | _ => Raised (TypeError "object is not iterable")
  end.

(** [[f(t) for t in items]]: left to right, the first exception ends it. *)
Fixpoint comprehension {A B : Type} (f : A -> result B) (items : list A)
  : result (list B) :=
  match items with
  | [] => Ok []
  | t :: rest =>
      result_bind (f t) (fun x =>
      result_bind (comprehension f rest) (fun xs => Ok (x :: xs)))
  end.

(** ** The network and the world *)

(** A response whose headers have arrived: [json_body] is what
    [await response.json()] gives once the body has been read. *)
Record response : Type := Response { json_body : result json }.

(** A [ClientSession], named by the number of sessions created before it. *)
Definition session : Type := nat.

Inductive event : Type :=
| SessionOpen (s : session)
| SessionClose (s : session)
| Request (s : session) (url : string).

(** The state outside the functions: the sessions created so far and the
    log of what was done to the network. *)
Record world : Type := World {
  sessions_created : nat;
  net_log : list event
}.

Definition emit (evs : list event) (w : world) : world :=
  {| sessions_created := sessions_created w; net_log := net_log w ++ evs |}.

(** [aiohttp.ClientSession()] entered by [async with]. *)
Definition ClientSession (w : world) : session * world :=
  let s := sessions_created w in
  (s, {| sessions_created := S s; net_log := net_log w ++ [SessionOpen s] |}).

(** The exit of [async with ... as session]: [session.close()]. *)
Definition session_close (s : session) (w : world) : world :=
  emit [SessionClose s] w.

Definition is_open (ev : event) : bool :=
  match ev with SessionOpen _ => true | _ => false end.

Definition is_close (ev : event) : bool :=
  match ev with SessionClose _ => true | _ => false end.

Definition is_request (ev : event) : bool :=
  match ev with Request _ _ => true | _ => false end.

Definition acquisitions (log : list event) : nat := List.length (filter is_open log).
Definition releases (log : list event) : nat := List.length (filter is_close log).
Definition network_calls (log : list event) : nat := List.length (filter is_request log).

(** The events that a call has added to the log. *)
Definition events_since (w w' : world) : list event :=
  skipn (List.length (net_log w)) (net_log w').

(** ** Coroutines *)

(** What a coroutine can await: the exchange started by
    [session.get(url, auth=...)] and the reading of a body. *)
Inductive io_op : Type -> Type :=
| SessionGet (s : session) (url : string) : io_op (result response)
| ReadJson (r : response) : io_op (result json).

(** An [async def] that has been called: finished with a value, finished
    with an exception, or suspended on [op] with the rest of its body
    [k]. *)
Inductive coro (A : Type) : Type :=
| Return (a : A)
| Raise (e : exn)
| Await (R : Type) (op : io_op R) (k : R -> coro A).

Arguments Raise {A} e.
Arguments Await {A R} op k.

Fixpoint coro_bind {A B : Type} (c : coro A) (f : A -> coro B) : coro B :=
  match c with
  | Return a => f a
  | Raise e => Raise e
  | Await op k => Await op (fun r => coro_bind (k r) f)
  end.

Definition of_result {A : Type} (r : result A) : coro A :=
  match r with
  | Ok a => Return a
  | Raised e => Raise e
  end.

(** [await op]: suspend, then go on with the value or raise. *)
Definition await {A : Type} (op : io_op (result A)) : coro A :=
  Await op of_result.

Declare Scope coro_scope.
Delimit Scope coro_scope with coro.
Notation "x <- c ;; k" := (coro_bind c (fun x => k))
  (at level 61, c at next level, right associativity) : coro_scope.

(** The network call that a coroutine has issued when it is suspended. *)
Definition issued {A : Type} (c : coro A) : list event :=
  match c with
  | Await (SessionGet s url) _ => [Request s url]
  | _ => []
  end.

(** List update by position; out of range it changes nothing. *)
Fixpoint list_set {A : Type} (i : nat) (x : A) (l : list A) : list A :=
  match l, i with
  | [], _ => []
  | _ :: t, O => x :: t
  | h :: t, S j => h :: list_set j x t
  end.

Section Notebook.

(** [tweet_parser.tweet.Tweet]: the class is not part of the notebook;
    constructing a [Tweet] from a record gives a tweet or raises. *)
Variable tweet : Type.
Variable Tweet : json -> result tweet.

(** The remote endpoint: what the exchange started by a GET of a URL
    ends with, a response or an exception of the client. *)
Variable remote : string -> result response.

Local Open Scope coro_scope.

(** The event that completes an awaited operation. *)
Definition answer {R : Type} (op : io_op R) : R :=
  match op with
  | SessionGet _ url => remote url
  | ReadJson r => json_body r
  end.

(** What a coroutine ends with when all its events arrive. *)
Fixpoint settle {A : Type} (c : coro A) : result A :=
  match c with
  | Return a => Ok a
  | Raise e => Raised e
  | Await op k => settle (k (answer op))
  end.

(** The number of events a coroutine still waits for. *)
Fixpoint depth {A : Type} (c : coro A) : nat :=
  match c with
  | Await op k => S (depth (k (answer op)))
  | _ => 0
  end.

(** [loop.run_until_complete(c)] for one coroutine that nothing else
    runs beside. *)
Fixpoint run_until_complete {A : Type} (c : coro A) (w : world) : result A * world :=
  match c with
  | Return a => (Ok a, w)
  | Raise e => (Raised e, w)
  | Await op k => run_until_complete (k (answer op)) (emit (issued c) w)
  end.

(** [async def fetch_tweets_coroutine(url)] *)
Definition fetch_tweets_coroutine_body (session : session) (url : string) : coro json :=
  response <- await (SessionGet session url) ;;
  await (ReadJson response).

Definition fetch_tweets_coroutine (url : string) (w : world) : result json * world :=
  let (session, w1) := ClientSession w in
  let (r, w2) := run_until_complete (fetch_tweets_coroutine_body session url) w1 in
  (r, session_close session w2).

(** The cell
    [tweets = [Tweet(i) for i in loop.run_until_complete(fetch_tweets_coroutine(query))['results']]] *)
Definition tweets_cell (query : string) (w : world) : result (list tweet) * world :=
  let (body, w') := fetch_tweets_coroutine query w in
  (result_bind body (fun body =>
   result_bind (getitem body "results") (fun results =>
   result_bind (iterate results) (fun items =>
   comprehension Tweet items))), w').

(** [async def fetch_tweets_fancy(session, url)] *)
Definition fetch_tweets_fancy (session : session) (url : string) : coro (list tweet) :=
  response <- await (SessionGet session url) ;;
  _json <- await (ReadJson response) ;;
  of_result
    (result_bind (getitem _json "results") (fun results =>
     result_bind (iterate results) (fun items =>
     comprehension Tweet items))).

(** ** [asyncio.gather] and the event loop *)

(** The exception of the first child, by position, that has raised. *)
Fixpoint first_raised {A : Type} (cs : list (coro A)) : option exn :=
  match cs with
  | [] => None
  | Raise e :: _ => Some e
  | _ :: rest => first_raised rest
  end.

(** The results by position, when every child has returned. *)
Fixpoint all_returned {A : Type} (cs : list (coro A)) : option (list A) :=
  match cs with
  | [] => Some []
  | Return a :: rest =>
      match all_returned rest with
      | Some rs => Some (a :: rs)
      | None => None
      end
  | _ :: rest => None
  end.

(** The loop while [gather]'s future is pending.  Each entry of the
    schedule is the position of the child whose awaited event arrives
    next; an entry for a child that awaits nothing is skipped.  When a
    child raises, the future gets that exception at once; when the last
    child returns, it gets the list of the results by position.  [None]:
    the schedule ended with the future still pending. *)
Fixpoint run_loop {A : Type} (sched : list nat) (cs : list (coro A)) (w : world)
  : option (result (list A)) * world :=
  match sched with
  | [] => (None, w)
  | i :: sched' =>
      match nth_error cs i with
      | Some (Await op k) =>
          let c' := k (answer op) in
          let cs' := list_set i c' cs in
          let w' := emit (issued c') w in
          match c' with
          | Raise e => (Some (Raised e), w')
          | Return _ =>
              match all_returned cs' with
              | Some rs => (Some (Ok rs), w')
              | None => run_loop sched' cs' w'
              end
          | Await _ _ => run_loop sched' cs' w'
          end
      | _ => run_loop sched' cs w
      end
  end.

(** [await asyncio.gather] of the tasks: they make their first step in
    the order of their creation, then the loop runs.  With no task the
    result is the empty list at once. *)
Definition gather {A : Type} (tasks : list (coro A)) (sched : list nat) (w : world)
  : option (result (list A)) * world :=
  let w0 := emit (flat_map issued tasks) w in
  match first_raised tasks with
  | Some e => (Some (Raised e), w0)
  | None =>
      match all_returned tasks with
      | Some rs => (Some (Ok rs), w0)
      | None => run_loop sched tasks w0
      end
  end.

(** [async def collect_queries(queries)], run by the loop under the
    schedule [sched].  [None]: the call is still suspended on [gather]
    when the schedule ends. *)
Definition collect_queries (queries : list string) (sched : list nat) (w : world)
  : option (result (list (list tweet))) * world :=
  let (session, w1) := ClientSession w in
  let tasks := map (fun query => fetch_tweets_fancy session query) queries in
  match gather tasks sched w1 with
  | (Some responses, w2) => (Some responses, session_close session w2)
  | (None, w2) => (None, w2)
  end.

(** The cell
    [res = list(it.chain.from_iterable(loop.run_until_complete(future)))] *)
Definition res_cell (queries : list string) (sched : list nat) (w : world)
  : option (result (list tweet)) * world :=
  match collect_queries queries sched w with
  | (Some (Ok responses), w') => (Some (Ok (List.concat responses)), w')
  | (Some (Raised e), w') => (Some (Raised e), w')
  | (None, w') => (None, w')
  end.

(** The ResultSet of one query, read off the code from top to bottom:
    what one fetch of the URL gives when nothing else runs. *)
Definition result_set (query : string) : result (list tweet) :=
  result_bind (remote query) (fun response =>
  result_bind (json_body response) (fun _json =>
  result_bind (getitem _json "results") (fun results =>
  result_bind (iterate results) (fun items =>
  comprehension Tweet items)))).

(** ** Schedules *)

(** The children after one event, with no regard to [gather]'s future. *)
Definition deliver {A : Type} (i : nat) (cs : list (coro A)) : list (coro A) :=
  match nth_error cs i with
  | Some (Await op k) => list_set i (k (answer op)) cs
  | _ => cs
  end.

Definition children_after {A : Type} (events : list nat) (cs : list (coro A))
  : list (coro A) :=
  fold_left (fun cs i => deliver i cs) events cs.

(** A coroutine that issues no network call after the one it is
    suspended on. *)
Fixpoint quiet {A : Type} (c : coro A) : Prop :=
  match c with
  | Await op k => issued (k (answer op)) = [] /\ quiet (k (answer op))
  | _ => True
  end.

(** A schedule that holds, for every child, at least as many events as
    the child still waits for. *)
Definition covered {A : Type} (sched : list nat) (cs : list (coro A)) : Prop :=
  forall j c, nth_error cs j = Some c ->
              depth c <= count_occ Nat.eq_dec sched j.

End Notebook.

(** ** The builder as the interpreter runs it

    A name is bound to a string, which cannot change, or to a list
    object of the store, which can: a list that the caller passes is the
    caller's own object.  A statement runs in a state, the store of the
    list objects and the world outside, and gives a value or raises. *)

Definition loc : Type := nat.

Inductive pyref : Type :=
| RefStr (s : string)
| RefList (l : loc).

Record pystate : Type := PyState {
  objects : list (list string);
  outside : world
}.

Definition Py (A : Type) : Type := pystate -> result A * pystate.

Definition py_ret {A : Type} (a : A) : Py A := fun st => (Ok a, st).

Definition py_bind {A B : Type} (c : Py A) (f : A -> Py B) : Py B :=
  fun st =>
    match c st with
    | (Ok a, st') => f a st'
    | (Raised e, st') => (Raised e, st')
    end.

Declare Scope py_scope.
Delimit Scope py_scope with py.
Notation "x <- c ;; k" := (py_bind c (fun x => k))
  (at level 61, c at next level, right associativity) : py_scope.

(** A list display, or a call that returns a list: a new object at a new
    address. *)
Definition new_list (items : list string) : Py pyref :=
  fun st =>
    (Ok (RefList (List.length (objects st))),
     {| objects := objects st ++ [items]; outside := outside st |}).

(** What iterating over an object goes through: the items of a list,
    the characters of a string. *)
Definition iter_strings (r : pyref) : Py (list string) :=
  fun st =>
    match r with
    | RefStr s => (Ok (map (fun c => String c "") (list_ascii_of_string s)), st)
    | RefList l =>
        match nth_error (objects st) l with
        | Some items => (Ok items, st)
        | None => (Raised (TypeError "object is not iterable"), st)
        end
    end.

(** [s.split()] *)
Definition str_split (s : string) : Py pyref := new_list (PyStr.split s).

(** [sep.join(iterable)] *)
Definition str_join (sep : string) (iterable : pyref) : Py string :=
  (items <- iter_strings iterable ;;
   py_ret (PyStr.join sep items))%py.

(** [l.append(x)]: the list object changes in place. *)
Definition list_append (r : pyref) (x : string) : Py unit :=
  fun st =>
    match r with
    | RefStr _ => (Raised (TypeError "'str' object has no attribute 'append'"), st)
    | RefList l =>
        match nth_error (objects st) l with
        | Some items =>
            (Ok tt, {| objects := list_set l (items ++ [x]) (objects st);
                       outside := outside st |})
        | None => (Raised (TypeError "object is not a list"), st)
        end
    end.

(** A step on the world outside, such as [ClientSession]. *)
Definition on_world {A : Type} (f : world -> A * world) : Py A :=
  fun st =>
    let (a, w) := f (outside st) in
    (Ok a, {| objects := objects st; outside := w |}).

(** The body of [gen_query_url], statement by statement. *)
Definition gen_query_url_run (url : string) (terms : pyref) (max_results : Z)
  : Py string :=
  (terms <- match terms with
            | RefStr s => str_split s
            | RefList _ => py_ret terms
            end ;;
   joined <- str_join "%20" terms ;;
   pieces <- new_list [url;
                       "query=";
                       joined;
                       PyStr.format "&maxResults={}" (PyStr.str_int max_results)] ;;
   str_join "" pieces)%py.

(** What the [terms] argument holds in a state. *)
Definition terms_value (st : pystate) (terms : pyref) : option terms_arg :=
  match terms with
  | RefStr s => Some (TermStr s)
  | RefList l => option_map TermSeq (nth_error (objects st) l)
  end.

(** [st'] is [st] with new objects and nothing else: the world outside
    is the same and every object of [st] is in [st'] as it was. *)
Definition extends (st st' : pystate) : Prop :=
  outside st' = outside st
  /\ exists fresh, objects st' = objects st ++ fresh.

Definition no_side_effect {A : Type} (c : Py A) : Prop :=
  forall st, extends st (snd (c st)).

(** ** A mock endpoint, for the examples

    ["q1"], ["q2"] and ["q3"] answer [{"results": [1]}],
    [{"results": [2, 3]}] and [{"results": [4]}]; ["empty"] answers [{}];
    ["down"] refuses the connection; any other URL answers a body that is
    not JSON.  The mock [Tweet] keeps the record as it is. *)
Definition mock_endpoint (url : string) : result response :=
  if String.eqb url "q1" then
    Ok (Response (Ok (JDict [("results", JList [JInt 1])])))
  else if String.eqb url "q2" then
    Ok (Response (Ok (JDict [("results", JList [JInt 2; JInt 3])])))
  else if String.eqb url "q3" then
    Ok (Response (Ok (JDict [("results", JList [JInt 4])])))
  else if String.eqb url "empty" then
    Ok (Response (Ok (JDict [])))
  else if String.eqb url "down" then
    Raised (ClientError "connection refused")
  else
    Ok (Response (Raised (JSONDecodeError "Expecting value"))).

Definition mock_Tweet (t : json) : result json := Ok t.

Definition fresh_world : world := World 0 [].

(** A schedule brings every one of [n] fetches its two events, the
    response and the body, in whatever order and with whatever else. *)
Definition covers (sched : list nat) (n : nat) : bool :=
  forallb (fun i => 2 <=? count_occ Nat.eq_dec sched i)%nat (seq 0 n).

(** ** Python objects, to compare values of different shapes *)

Inductive pyobj (T : Type) : Type :=
| PyItem (t : T)
| PyList (items : list (pyobj T)).

Definition py_flat {T : Type} (l : list T) : pyobj T :=
  PyList (map (@PyItem T) l).

Definition py_nested {T : Type} (ll : list (list T)) : pyobj T :=
  PyList (map (@py_flat T) ll).

(** The value returned by [collect_queries], as a Python object, is the
    flat list of the records of the ResultSets. *)
Definition returns_concatenation {T : Type}
  (outcome : option (result (list (list T)))) (result_sets : list (list T)) : Prop :=
  exists responses,
    outcome = Some (Ok responses)
    /\ py_nested responses = py_flat (List.concat result_sets).

(** The decimal value of a string, when it is one. *)
Definition int_of_decimal (s : string) : option Z :=
  option_map Z.of_int (NilZero.int_of_string s).

(** The strings of a list one after the other. *)
Definition flatten (l : list string) : string :=
  fold_right String.append "" l.

(** A word: not empty, and no whitespace in it. *)
Definition is_word (w : string) : Prop :=
  w <> "" /\ PyStr.forallb_str (fun c => negb (PyStr.isspace c)) w = true.

(** ** The synchronous cells *)

Section SyncCells.

Variable tweet : Type.
Variable Tweet : json -> result tweet.

(** [requests.get(url=query, auth=AUTH)]: what the exchange ends with,
    a response or an exception of the client. *)
Variable requests_get : string -> result response.

(** What [requests.get(url=query, auth=AUTH).json()['results']] is. *)
Definition sync_value (query : string) : result json :=
  result_bind (requests_get query) (fun response =>
  result_bind (json_body response) (fun body =>
  getitem body "results")).

(** [def sync_tweets(query)].  [sent] is the list of the URLs that have
    been requested through [requests], oldest first. *)
Definition sync_tweets (query : string) (sent : list string)
  : result json * list string :=
  (sync_value query, sent ++ [query]).

(** The cell [tweets = [Tweet(i) for i in sync_tweets(query)]] *)
Definition tweets_sync_cell (query : string) (sent : list string)
  : result (list tweet) * list string :=
  let (results, sent') := sync_tweets query sent in
  (result_bind results (fun results =>
   result_bind (iterate results) (fun items =>
   comprehension Tweet items)), sent').

(** [[sync_tweets(query) for query in queries]]: one call after the
    other, the first exception ends it. *)
Fixpoint sync_all (queries : list string) (sent : list string)
  : result (list json) * list string :=
  match queries with
  | [] => (Ok [], sent)
  | query :: rest =>
      match sync_tweets query sent with
      | (Ok r, sent') =>
          match sync_all rest sent' with
          | (Ok rs, sent'') => (Ok (r :: rs), sent'')
          | (Raised e, sent'') => (Raised e, sent'')
          end
      | (Raised e, sent') => (Raised e, sent')
      end
  end.

(** [[Tweet(i) for i in it.chain.from_iterable(iterables)]]: the chain
    is lazy, so each iterable is opened when the one before it is
    exhausted, after the [Tweet]s of its records have been made. *)
Fixpoint chain_tweets (iterables : list json) : result (list tweet) :=
  match iterables with
  | [] => Ok []
  | r :: rest =>
      result_bind (iterate r) (fun items =>
      result_bind (comprehension Tweet items) (fun ts =>
      result_bind (chain_tweets rest) (fun ts' =>
      Ok (ts ++ ts'))))
  end.

(** The cell
    [tweets = [Tweet(i) for i in it.chain.from_iterable([sync_tweets(query) for query in queries])]] *)
Definition tweets_sync_batch_cell (queries : list string) (sent : list string)
  : result (list tweet) * list string :=
  let (results, sent') := sync_all queries sent in
  (result_bind results chain_tweets, sent').

End SyncCells.

(** ** The query builder: what it returns *)

Section StringFacts.

Local Open Scope string_scope.

Lemma append_empty_r (s : string) : s ++ "" = s.
Proof.
  induction s as [|c s IH]; simpl; [reflexivity | now rewrite IH].
Qed.

Lemma append_assoc (a b c : string) : (a ++ b) ++ c = a ++ (b ++ c).
Proof.
  induction a as [|x a IH]; simpl; [reflexivity | now rewrite IH].
Qed.

Lemma format_maxResults (arg : string) :
  PyStr.format "&maxResults={}" arg = "&maxResults=" ++ arg.
Proof.
  simpl. now rewrite append_empty_r.
Qed.

(** The builder on a sequence, as one concatenation. *)
Lemma gen_query_url_unfold (url : string) (terms : list string) (m : Z) :
  gen_query_url url (TermSeq terms) m
  = url ++ "query=" ++ PyStr.join "%20" terms ++ "&maxResults=" ++ PyStr.str_int m.
Proof.
  unfold gen_query_url.
  rewrite format_maxResults.
  cbn [PyStr.join]. reflexivity.
Qed.

Lemma str_int_roundtrip (m : Z) : int_of_decimal (PyStr.str_int m) = Some m.
Proof.
  unfold int_of_decimal, PyStr.str_int.
  rewrite NilZero.isi.
  - simpl. now rewrite DecimalZ.of_to.
  - destruct m as [|p|p]; simpl; try discriminate.
    intros [= H]. now apply DecimalPos.Unsigned.to_uint_nonnil in H.
  - destruct m as [|p|p]; simpl; try discriminate.
    intros [= H]. now apply DecimalPos.Unsigned.to_uint_nonnil in H.
Qed.

Lemma forallb_str_app (p : ascii -> bool) (a b : string) :
  PyStr.forallb_str p (a ++ b) = PyStr.forallb_str p a && PyStr.forallb_str p b.
Proof.
  induction a as [|c a IH]; simpl; [reflexivity|].
  rewrite IH. now rewrite andb_assoc.
Qed.

(** Every word that [split] gives is a word. *)
Lemma split_from_words (s word : string) :
  PyStr.forallb_str (fun c => negb (PyStr.isspace c)) word = true ->
  Forall is_word (PyStr.split_from word s).
Proof.
  revert word.
  induction s as [|c s IH]; intros word Hw; simpl.
  - destruct (String.length word =? 0)%nat eqn:E; constructor; [|constructor].
    split; [|exact Hw].
    intros ->. discriminate.
  - destruct (PyStr.isspace c) eqn:Ec.
    + destruct (String.length word =? 0)%nat eqn:E.
      * now apply IH.
      * constructor; [|now apply IH].
        split; [|exact Hw]. intros ->. discriminate.
    + apply IH. rewrite forallb_str_app, Hw. simpl. now rewrite Ec.
Qed.

Lemma split_words (s : string) : Forall is_word (PyStr.split s).
Proof.
  now apply split_from_words.
Qed.

(** A string of whitespace has no word. *)
Lemma split_whitespace (s : string) :
  PyStr.forallb_str PyStr.isspace s = true -> PyStr.split s = [].
Proof.
  unfold PyStr.split.
  induction s as [|c s IH]; simpl; [reflexivity|].
  intros H. apply andb_true_iff in H as [Hc Hs].
  rewrite Hc. now apply IH.
Qed.

(** [join] puts the separator between the items and nowhere else. *)
Lemma join_cons (sep x : string) (rest : list string) :
  PyStr.join sep (x :: rest) = x ++ flatten (map (fun y => sep ++ y) rest).
Proof.
  revert x.
  induction rest as [|y rest IH]; intros x.
  - simpl. now rewrite append_empty_r.
  - change (PyStr.join sep (x :: y :: rest)) with (x ++ sep ++ PyStr.join sep (y :: rest)).
    rewrite IH. simpl. now rewrite append_assoc.
Qed.

Lemma join_app_cons (sep t : string) (before after : list string) :
  PyStr.join sep (before ++ t :: after)
  = flatten (map (fun x => x ++ sep) before) ++ t
    ++ flatten (map (fun x => sep ++ x) after).
Proof.
  induction before as [|x before IH].
  - simpl. apply join_cons.
  - simpl flatten. rewrite !append_assoc, <- IH.
    destruct before; reflexivity.
Qed.

End StringFacts.

Example split_example :
  PyStr.split (String " " (String (ascii_of_nat 10) "just bought  a house "))
  = ["just"; "bought"; "a"; "house"].
Proof. reflexivity. Qed.

Example query_cell :
  query = (GNIP_BASE_URL ++ "query=just%20bought%20a%20house&maxResults=100")%string.
Proof. reflexivity. Qed.

(** C3: for every base endpoint [E], every sequence of terms [T] and
    every integer [M] (so every positive one), the builder returns
    exactly [E], then ["query="], then the terms of [T] in their order
    joined by ["%20"], then ["&maxResults="], then the decimal rendering
    of [M], the string of digits that reads back as [M]; and the call
    with ["https://x/?"], the four terms of the notebook and 100 returns
    ["https://x/?query=just%20bought%20a%20house&maxResults=100"]. *)
Theorem gen_query_url_sequence (E : string) (T : list string) (M : Z) :
  gen_query_url E (TermSeq T) M
  = (E ++ "query=" ++ PyStr.join "%20" T ++ "&maxResults=" ++ PyStr.str_int M)%string
  /\ int_of_decimal (PyStr.str_int M) = Some M
  /\ gen_query_url "https://x/?" (TermSeq ["just"; "bought"; "a"; "house"]) 100
     = "https://x/?query=just%20bought%20a%20house&maxResults=100".
Proof.
  split; [apply gen_query_url_unfold|].
  split; [apply str_int_roundtrip|].
  vm_compute. reflexivity.
Qed.

(** C7: the builder called with the single string [S] returns what it
    returns for the sequence of the words of [S], the words that
    [S.split()] gives: none is empty and none has whitespace in it. *)
Theorem gen_query_url_string_is_split (E S : string) (M : Z) :
  gen_query_url E (TermStr S) M = gen_query_url E (TermSeq (PyStr.split S)) M
  /\ Forall is_word (PyStr.split S).
Proof.
  split; [reflexivity | apply split_words].
Qed.

(** C9: every term goes into the query as it is: whatever stands before
    and after a term [t] of the sequence, the output has [t] itself
    between the earlier terms, each followed by ["%20"], and the later
    terms, each preceded by ["%20"]; so a space, an ampersand or a percent
    sign in a term is in the query unencoded. *)
Theorem gen_query_url_terms_verbatim
  (E t : string) (before after : list string) (M : Z) :
  gen_query_url E (TermSeq (before ++ t :: after)) M
  = (E ++ "query="
       ++ flatten (map (fun x => x ++ "%20") before)
       ++ t
       ++ flatten (map (fun x => "%20" ++ x) after)
       ++ "&maxResults=" ++ PyStr.str_int M)%string
  /\ gen_query_url "https://x/?" (TermSeq ["a b"; "c&d"; "100%"]) 100
     = "https://x/?query=a b%20c&d%20100%&maxResults=100".
Proof.
  split; [|vm_compute; reflexivity].
  rewrite gen_query_url_unfold, join_app_cons.
  now rewrite !append_assoc.
Qed.

(** C10: with no term, the empty sequence or a string [S] of whitespace
    only (which splits to the empty sequence), the builder returns
    [E], then ["query=&maxResults="], then [M], with nothing between
    ["query="] and ["&"]. *)
Theorem gen_query_url_no_terms (E S : string) (M : Z)
  (HS : PyStr.forallb_str PyStr.isspace S = true) :
  PyStr.split S = []
  /\ gen_query_url E (TermSeq []) M
     = (E ++ "query=&maxResults=" ++ PyStr.str_int M)%string
  /\ gen_query_url E (TermStr S) M
     = (E ++ "query=&maxResults=" ++ PyStr.str_int M)%string.
Proof.
  assert (Hsplit : PyStr.split S = []) by now apply split_whitespace.
  split; [exact Hsplit|].
  split.
  - now rewrite gen_query_url_unfold.
  - transitivity (gen_query_url E (TermSeq []) M).
    + unfold gen_query_url. now rewrite Hsplit.
    + now rewrite gen_query_url_unfold.
Qed.

Lemma gen_query_url_no_terms_witness :
  PyStr.forallb_str PyStr.isspace (String " " (String (ascii_of_nat 9) " ")) = true
  /\ gen_query_url "https://x/?" (TermStr (String " " (String (ascii_of_nat 9) " "))) 100
     = "https://x/?query=&maxResults=100".
Proof.
  split; [reflexivity|].
  exact (proj2 (proj2 (@gen_query_url_no_terms "https://x/?"
                         (String " " (String (ascii_of_nat 9) " ")) 100 eq_refl))).
Defined.

(** ** Lists updated by position *)

Section ListSet.

Variable A : Type.

Lemma list_set_length (i : nat) (x : A) (l : list A) :
  List.length (list_set i x l) = List.length l.
Proof.
  revert i. induction l as [|h t IH]; intros [|i]; simpl; auto.
Qed.

Lemma nth_error_list_set_eq (i : nat) (x y : A) (l : list A) :
  nth_error l i = Some y -> nth_error (list_set i x l) i = Some x.
Proof.
  revert i. induction l as [|h t IH]; intros [|i]; simpl; try discriminate; auto.
Qed.

Lemma nth_error_list_set_neq (i j : nat) (x : A) (l : list A) :
  i <> j -> nth_error (list_set i x l) j = nth_error l j.
Proof.
  revert i j. induction l as [|h t IH]; intros [|i] [|j] H; simpl; auto.
  congruence.
Qed.

Lemma map_list_set (B : Type) (f : A -> B) (i : nat) (x y : A) (l : list A) :
  nth_error l i = Some y -> f x = f y -> map f (list_set i x l) = map f l.
Proof.
  revert i. induction l as [|h t IH]; intros [|i]; simpl; try discriminate.
  - intros [= ->] ->. reflexivity.
  - intros H E. f_equal. now apply IH.
Qed.

Lemma Forall_list_set (P : A -> Prop) (i : nat) (x : A) (l : list A) :
  P x -> Forall P l -> Forall P (list_set i x l).
Proof.
  intros Hx. revert i.
  induction l as [|h t IH]; intros [|i] H; simpl; auto;
    inversion H; subst; constructor; auto.
Qed.

End ListSet.

(** ** Coroutines and the loop *)

Section LoopFacts.

Variable remote : string -> result response.
Variable A : Type.

Implicit Types (c : coro A) (cs : list (coro A)) (sched : list nat) (w : world).

Lemma emit_nil w : emit [] w = w.
Proof.
  destruct w as [n log]. unfold emit. simpl. now rewrite app_nil_r.
Qed.

Lemma settle_depth_0 c :
  depth remote c = 0 -> c = of_result (settle remote c).
Proof.
  destruct c; simpl; intros H; try reflexivity; discriminate.
Qed.

Lemma run_until_complete_settle c w :
  fst (run_until_complete remote c w) = settle remote c.
Proof.
  revert w. induction c as [a|e|R op k IH]; intros w; simpl; auto.
Qed.

(** [all_returned] and [first_raised] against the states of the children. *)

Lemma all_returned_Some cs rs :
  all_returned cs = Some rs -> cs = map (@Return A) rs.
Proof.
  revert rs. induction cs as [|c cs IH]; intros rs; simpl.
  - intros [= <-]. reflexivity.
  - destruct c; try discriminate.
    destruct (all_returned cs) as [rs'|]; try discriminate.
    intros [= <-]. simpl. f_equal. now apply IH.
Qed.

Lemma all_returned_None_nth cs i c :
  nth_error cs i = Some c -> (forall a, c <> Return a) -> all_returned cs = None.
Proof.
  revert i. induction cs as [|c0 cs IH]; intros [|i]; simpl; try discriminate.
  - intros [= ->] H. destruct c; try reflexivity. now destruct (H a).
  - intros Hn H. destruct c0; try reflexivity.
    now rewrite (IH _ Hn H).
Qed.

Lemma first_raised_None_nth cs i c :
  first_raised cs = None -> nth_error cs i = Some c -> forall e, c <> Raise e.
Proof.
  revert i. induction cs as [|c0 cs IH]; intros [|i]; simpl; try discriminate.
  - intros H [= ->] e ->. discriminate.
  - intros H Hn. apply (IH i); auto. destruct c0; auto; discriminate.
Qed.

Lemma first_raised_list_set cs i c :
  first_raised cs = None -> (forall e, c <> Raise e) ->
  first_raised (list_set i c cs) = None.
Proof.
  revert i. induction cs as [|c0 cs IH]; intros [|i] H Hc; simpl; auto.
  - destruct c0; simpl in H; try discriminate;
      destruct c; auto; now destruct (Hc e).
  - destruct c0; simpl in H; try discriminate; simpl; now apply IH.
Qed.

(** When no child waits for an event, the children that settle well
    have all returned. *)
Lemma all_returned_settled cs rs :
  map (settle remote) cs = map (@Ok A) rs ->
  (forall i c, nth_error cs i = Some c -> depth remote c = 0) ->
  all_returned cs = Some rs.
Proof.
  revert rs. induction cs as [|c cs IH]; intros [|r rs]; simpl; try discriminate.
  - reflexivity.
  - intros [= Hc Hcs] Hd.
    rewrite (settle_depth_0 c (Hd 0 c eq_refl)), Hc. simpl.
    rewrite (IH rs Hcs); [reflexivity|].
    intros i c' Hn. exact (Hd (S i) c' Hn).
Qed.

End LoopFacts.

Section LoopRuns.

Variable remote : string -> result response.
Variable A : Type.

Implicit Types (c : coro A) (cs : list (coro A)) (sched : list nat) (w : world).

Lemma covered_skip i sched cs :
  covered remote (i :: sched) cs ->
  (forall c, nth_error cs i = Some c -> depth remote c = 0) ->
  covered remote sched cs.
Proof.
  intros Hcov Hi j c Hn.
  destruct (Nat.eq_dec i j) as [->|Hij].
  - rewrite (Hi c Hn). lia.
  - specialize (Hcov j c Hn). rewrite count_occ_cons_neq in Hcov; auto.
Qed.

Lemma covered_step i sched cs R (op : io_op R) (k : R -> coro A) :
  covered remote (i :: sched) cs ->
  nth_error cs i = Some (Await op k) ->
  covered remote sched (list_set i (k (answer remote op)) cs).
Proof.
  intros Hcov Hi j c Hn.
  destruct (Nat.eq_dec i j) as [<-|Hij].
  - rewrite (nth_error_list_set_eq _ _ _ Hi) in Hn. injection Hn as <-.
    specialize (Hcov i _ Hi). rewrite count_occ_cons_eq in Hcov; auto.
    simpl in Hcov. lia.
  - rewrite nth_error_list_set_neq in Hn; auto.
    specialize (Hcov j c Hn). rewrite count_occ_cons_neq in Hcov; auto.
Qed.

Lemma covered_nil cs :
  covered remote [] cs ->
  forall i c, nth_error cs i = Some c -> depth remote c = 0.
Proof.
  intros Hcov i c Hn. specialize (Hcov i c Hn). simpl in Hcov. lia.
Qed.

(** Children that issue no further call leave the world as it is. *)
Lemma run_loop_quiet sched cs w :
  Forall (quiet remote) cs -> snd (run_loop remote sched cs w) = w.
Proof.
  revert cs w.
  induction sched as [|i sched IH]; intros cs w Hq; simpl; [reflexivity|].
  destruct (nth_error cs i) as [c|] eqn:Hi; [|now apply IH].
  destruct c as [a|e|R op k]; try now apply IH.
  assert (Hc : quiet remote (Await op k)).
  { rewrite Forall_forall in Hq. apply Hq. eapply nth_error_In; eauto. }
  simpl in Hc. destruct Hc as [Hiss Hk].
  rewrite Hiss, emit_nil.
  assert (Hq' : Forall (quiet remote) (list_set i (k (answer remote op)) cs))
    by now apply Forall_list_set.
  destruct (k (answer remote op)) as [a|e|R' op' k'] eqn:Hk'.
  - destruct (all_returned _); [reflexivity | now apply IH].
  - reflexivity.
  - now apply IH.
Qed.

(** When every child settles with a value, the loop gives the values by
    position or is still waiting, whatever the schedule. *)
Lemma run_loop_values sched cs w rs r :
  map (settle remote) cs = map (@Ok A) rs ->
  fst (run_loop remote sched cs w) = Some r -> r = Ok rs.
Proof.
  revert cs w.
  induction sched as [|i sched IH]; intros cs w Hs; simpl; [discriminate|].
  destruct (nth_error cs i) as [c|] eqn:Hi; [|now apply IH].
  destruct c as [a|e|R op k]; try now apply IH.
  assert (Hs' : map (settle remote) (list_set i (k (answer remote op)) cs)
                = map (@Ok A) rs).
  { rewrite <- Hs. eapply map_list_set; eauto. }
  destruct (k (answer remote op)) as [a|e|R' op' k'] eqn:Hk'.
  - destruct (all_returned _) as [rs'|] eqn:Hall; [|now apply IH].
    simpl. intros [= <-]. f_equal.
    apply all_returned_Some in Hall. rewrite Hall in Hs'.
    rewrite map_map in Hs'. simpl in Hs'.
    clear - Hs'. revert rs Hs'.
    induction rs' as [|x rs' IHr]; intros [|y rs]; simpl; try discriminate; auto.
    intros [= -> H]. f_equal. now apply IHr.
  - exfalso.
    assert (Hn := nth_error_list_set_eq i (@Raise A e) cs Hi).
    apply (map_nth_error (settle remote)) in Hn. rewrite Hs' in Hn.
    simpl in Hn. apply nth_error_In, in_map_iff in Hn as (x & Hx & _). discriminate.
  - now apply IH.
Qed.

(** ... and a schedule that covers the children brings the values. *)
Lemma run_loop_completes sched cs w rs :
  map (settle remote) cs = map (@Ok A) rs ->
  all_returned cs = None ->
  covered remote sched cs ->
  fst (run_loop remote sched cs w) = Some (Ok rs).
Proof.
  revert cs w.
  induction sched as [|i sched IH]; intros cs w Hs Hall Hcov.
  - rewrite (all_returned_settled remote cs rs Hs (covered_nil Hcov)) in Hall.
    discriminate.
  - simpl.
    destruct (nth_error cs i) as [c|] eqn:Hi.
    2:{ apply IH; auto. apply (covered_skip Hcov). intros c. rewrite Hi. discriminate. }
    destruct c as [a|e|R op k].
    1,2: apply IH; auto; apply (covered_skip Hcov);
         intros c; rewrite Hi; intros [= <-]; reflexivity.
    assert (Hs' : map (settle remote) (list_set i (k (answer remote op)) cs)
                  = map (@Ok A) rs).
    { rewrite <- Hs. eapply map_list_set; eauto. }
    assert (Hcov' := covered_step Hcov Hi).
    pose proof (fun w => @run_loop_values (i :: sched) cs w rs) as Hval.
    specialize (Hval w). simpl in Hval. rewrite Hi in Hval.
    destruct (k (answer remote op)) as [a|e|R' op' k'] eqn:Hk'.
    + destruct (all_returned (list_set i (Return a) cs)) as [rs'|] eqn:Hall'.
      * simpl in *. f_equal. now apply Hval.
      * now apply IH.
    + simpl in Hval. specialize (Hval _ Hs eq_refl). discriminate.
    + apply IH; auto.
      eapply all_returned_None_nth;
        [eapply nth_error_list_set_eq; eauto | discriminate].
Qed.

(** A result of the loop is made of what the children settle with. *)
Lemma run_loop_Ok_settle sched cs w rs :
  fst (run_loop remote sched cs w) = Some (Ok rs) ->
  map (settle remote) cs = map (@Ok A) rs.
Proof.
  revert cs w.
  induction sched as [|i sched IH]; intros cs w; simpl; [discriminate|].
  destruct (nth_error cs i) as [c|] eqn:Hi; [|now apply IH].
  destruct c as [a|e|R op k]; try now apply IH.
  assert (Hm : forall c', settle remote c' = settle remote (k (answer remote op)) ->
               map (settle remote) (list_set i c' cs) = map (settle remote) cs).
  { intros c' Hc'. eapply map_list_set; eauto. }
  destruct (k (answer remote op)) as [a|e|R' op' k'] eqn:Hk'.
  - rewrite <- (Hm (Return a) eq_refl).
    destruct (all_returned (list_set i (Return a) cs)) as [rs'|] eqn:Hall.
    + simpl. intros [= <-]. apply all_returned_Some in Hall.
      rewrite Hall, map_map. reflexivity.
    + now apply IH.
  - discriminate.
  - rewrite <- (Hm (Await op' k') eq_refl). now apply IH.
Qed.

(** With a child that settles with an exception there is no result,
    whatever the schedule. *)
Lemma run_loop_no_partial sched cs w j c e rs :
  nth_error cs j = Some c -> settle remote c = Raised e ->
  fst (run_loop remote sched cs w) <> Some (Ok rs).
Proof.
  intros Hj Hc Hrun.
  apply run_loop_Ok_settle in Hrun.
  apply (map_nth_error (settle remote)) in Hj.
  rewrite Hrun, Hc in Hj.
  apply nth_error_In, in_map_iff in Hj as (x & Hx & _). discriminate.
Qed.

Lemma children_after_snoc (p : list nat) i cs :
  children_after remote (p ++ [i]) cs = deliver remote i (children_after remote p cs).
Proof.
  unfold children_after. now rewrite fold_left_app.
Qed.

(** With a child that settles with an exception, a schedule that covers
    the children makes the loop end with the exception of the child that
    raises first: the event [i] that follows a prefix [p] of the schedule
    after which no child has raised. *)
Lemma run_loop_first_failure sched cs w :
  first_raised cs = None ->
  (exists j c e, nth_error cs j = Some c /\ settle remote c = Raised e) ->
  covered remote sched cs ->
  exists p i rest e,
    sched = p ++ i :: rest
    /\ first_raised (children_after remote p cs) = None
    /\ nth_error (children_after remote (p ++ [i]) cs) i = Some (Raise e)
    /\ fst (run_loop remote sched cs w) = Some (Raised e).
Proof.
  revert cs w.
  induction sched as [|i sched IH]; intros cs w Hfr (j & cj & ej & Hj & Hcj) Hcov.
  - exfalso.
    pose proof (settle_depth_0 remote cj (covered_nil Hcov j Hj)) as Hd.
    rewrite Hcj in Hd. simpl in Hd.
    exact (first_raised_None_nth cs j Hfr Hj Hd).
  - assert (Hskip : deliver remote i cs = cs ->
                    fst (run_loop remote (i :: sched) cs w)
                    = fst (run_loop remote sched cs w) ->
                    covered remote sched cs ->
                    exists p i0 rest e,
                      i :: sched = p ++ i0 :: rest
                      /\ first_raised (children_after remote p cs) = None
                      /\ nth_error (children_after remote (p ++ [i0]) cs) i0
                         = Some (Raise e)
                      /\ fst (run_loop remote (i :: sched) cs w) = Some (Raised e)).
    { intros Hdel Hrun Hcov'.
      destruct (IH cs w Hfr (ex_intro _ j (ex_intro _ cj (ex_intro _ ej (conj Hj Hcj)))) Hcov')
        as (p & i0 & rest & e & -> & Hp & Hi0 & Hr).
      exists (i :: p), i0, rest, e.
      repeat split; auto.
      - unfold children_after in *. simpl. now rewrite Hdel.
      - unfold children_after in *. simpl. now rewrite Hdel.
      - now rewrite Hrun. }
    destruct (nth_error cs i) as [c|] eqn:Hi.
    2:{ apply Hskip.
        - unfold deliver. now rewrite Hi.
        - simpl. now rewrite Hi.
        - apply (covered_skip Hcov). intros c. rewrite Hi. discriminate. }
    destruct c as [a|e|R op k].
    1,2: apply Hskip;
         [ unfold deliver; now rewrite Hi
         | simpl; now rewrite Hi
         | apply (covered_skip Hcov); intros c; rewrite Hi; intros [= <-]; reflexivity ].
    clear Hskip.
    assert (Hdel : deliver remote i cs = list_set i (k (answer remote op)) cs).
    { unfold deliver. now rewrite Hi. }
    assert (Hcov' := covered_step Hcov Hi).
    destruct (k (answer remote op)) as [a|e|R' op' k'] eqn:Hk'.
    + (* the child returns: another one is the one that fails *)
      assert (Hji : j <> i).
      { intros ->. rewrite Hi in Hj. injection Hj as <-.
        simpl in Hcj. rewrite Hk' in Hcj. discriminate. }
      assert (Hj' : nth_error (list_set i (Return a) cs) j = Some cj).
      { rewrite nth_error_list_set_neq; auto. }
      assert (Hall : all_returned (list_set i (Return a) cs) = None).
      { apply (all_returned_None_nth _ _ Hj').
        intros a' ->. discriminate. }
      destruct (IH (list_set i (Return a) cs) (emit (issued (@Return A a)) w))
        as (p & i0 & rest & e & -> & Hp & Hi0 & Hr); auto.
      { apply first_raised_list_set; auto. discriminate. }
      { exists j, cj, ej. auto. }
      exists (i :: p), i0, rest, e.
      repeat split.
      * unfold children_after in *. simpl. now rewrite Hdel.
      * unfold children_after in *. simpl. now rewrite Hdel.
      * simpl. rewrite Hi, Hk', Hall. exact Hr.
    + (* the child raises: it is the first one *)
      exists [], i, sched, e.
      repeat split; auto.
      * unfold children_after. simpl. rewrite Hdel.
        eapply nth_error_list_set_eq; eauto.
      * simpl. now rewrite Hi, Hk'.
    + (* the child awaits its next event *)
      assert (Hex : exists j' c' e', nth_error (list_set i (Await op' k') cs) j' = Some c'
                                     /\ settle remote c' = Raised e').
      { destruct (Nat.eq_dec i j) as [<-|Hij].
        - exists i, (Await op' k'), ej. split.
          + eapply nth_error_list_set_eq; eauto.
          + rewrite Hi in Hj. injection Hj as <-.
            simpl in Hcj. now rewrite Hk' in Hcj.
        - exists j, cj, ej. split; auto.
          rewrite nth_error_list_set_neq; auto. }
      destruct (IH (list_set i (Await op' k') cs) (emit (issued (Await op' k')) w))
        as (p & i0 & rest & e & -> & Hp & Hi0 & Hr); auto.
      { apply first_raised_list_set; auto. discriminate. }
      exists (i :: p), i0, rest, e.
      repeat split.
      * unfold children_after in *. simpl. now rewrite Hdel.
      * unfold children_after in *. simpl. now rewrite Hdel.
      * simpl. rewrite Hi, Hk'. exact Hr.
Qed.

End LoopRuns.

(** ** The fetch of one query *)

Section FetchFacts.

Variable tweet : Type.
Variable Tweet : json -> result tweet.
Variable remote : string -> result response.

Implicit Types (s : session) (url : string) (w : world).

Lemma fetch_tweets_fancy_settle s url :
  settle remote (fetch_tweets_fancy Tweet s url) = result_set Tweet remote url.
Proof.
  unfold result_set, fetch_tweets_fancy. simpl.
  destruct (remote url) as [resp|e]; simpl; [|reflexivity].
  destruct (json_body resp) as [body|e]; simpl; [|reflexivity].
  destruct (result_bind _ _); reflexivity.
Qed.

Lemma fetch_tweets_fancy_depth s url :
  depth remote (fetch_tweets_fancy Tweet s url) <= 2.
Proof.
  unfold fetch_tweets_fancy. simpl.
  destruct (remote url) as [resp|e]; simpl; [|lia].
  destruct (json_body resp) as [body|e]; simpl; [|lia].
  destruct (result_bind _ _); simpl; lia.
Qed.

Lemma fetch_tweets_fancy_quiet s url :
  quiet remote (fetch_tweets_fancy Tweet s url).
Proof.
  unfold fetch_tweets_fancy. simpl.
  destruct (remote url) as [resp|e]; simpl; [|auto].
  split; [reflexivity|].
  destruct (json_body resp) as [body|e]; simpl; [|auto].
  destruct (result_bind _ _); simpl; auto.
Qed.

Lemma fetch_tweets_fancy_issued s url :
  issued (fetch_tweets_fancy Tweet s url) = [Request s url].
Proof. reflexivity. Qed.

(** The tasks of a batch. *)

Lemma tasks_settle s (queries : list string) :
  map (settle remote) (map (fetch_tweets_fancy Tweet s) queries)
  = map (result_set Tweet remote) queries.
Proof.
  rewrite map_map. apply map_ext. intros q. apply fetch_tweets_fancy_settle.
Qed.

Lemma tasks_first_raised s (queries : list string) :
  first_raised (map (fetch_tweets_fancy Tweet s) queries) = None.
Proof.
  induction queries as [|q queries IH]; simpl; auto.
Qed.

Lemma tasks_all_returned s (queries : list string) :
  queries <> [] -> all_returned (map (fetch_tweets_fancy Tweet s) queries) = None.
Proof.
  destruct queries as [|q queries]; [congruence | reflexivity].
Qed.

Lemma tasks_issued s (queries : list string) :
  flat_map (@issued (list tweet)) (map (fetch_tweets_fancy Tweet s) queries)
  = map (Request s) queries.
Proof.
  induction queries as [|q queries IH]; simpl; [reflexivity | now rewrite IH].
Qed.

Lemma tasks_quiet s (queries : list string) :
  Forall (quiet remote) (map (fetch_tweets_fancy Tweet s) queries).
Proof.
  apply Forall_forall. intros c Hc. apply in_map_iff in Hc as (q & <- & _).
  apply fetch_tweets_fancy_quiet.
Qed.

Lemma tasks_covered s (queries : list string) (sched : list nat) :
  covers sched (List.length queries) = true ->
  covered remote sched (map (fetch_tweets_fancy Tweet s) queries).
Proof.
  unfold covers. rewrite forallb_forall. intros Hc j c Hj.
  assert (Hlt : j < List.length queries).
  { rewrite <- (length_map (fetch_tweets_fancy Tweet s)).
    apply nth_error_Some. congruence. }
  assert (Hin : In j (seq 0 (List.length queries))) by (apply in_seq; lia).
  apply Hc, Nat.leb_le in Hin.
  apply nth_error_In, in_map_iff in Hj as (q & <- & _).
  pose proof (fetch_tweets_fancy_depth s q). lia.
Qed.

(** [gather] on the tasks of a batch: the requests go out in the order
    of the queries and nothing else is written. *)
Lemma gather_tasks_world s (queries : list string) (sched : list nat) w :
  snd (gather remote (map (fetch_tweets_fancy Tweet s) queries) sched w)
  = emit (map (Request s) queries) w.
Proof.
  unfold gather. rewrite tasks_first_raised, tasks_issued.
  destruct (all_returned _); [reflexivity|].
  apply run_loop_quiet, tasks_quiet.
Qed.

Lemma gather_tasks_result s (queries : list string) (sched : list nat) w :
  queries <> [] ->
  fst (gather remote (map (fetch_tweets_fancy Tweet s) queries) sched w)
  = fst (run_loop remote sched (map (fetch_tweets_fancy Tweet s) queries)
           (emit (map (Request s) queries) w)).
Proof.
  intros Hne. unfold gather.
  now rewrite tasks_first_raised, tasks_issued, tasks_all_returned.
Qed.

(** [collect_queries] in terms of [gather]. *)
Lemma collect_queries_fst (queries : list string) (sched : list nat) w :
  fst (collect_queries Tweet remote queries sched w)
  = fst (gather remote (map (fetch_tweets_fancy Tweet (sessions_created w)) queries)
           sched (snd (ClientSession w))).
Proof.
  unfold collect_queries. simpl.
  destruct (gather _ _ _ _) as [[r|] w2]; reflexivity.
Qed.

End FetchFacts.

(** ** The dispatcher *)

Section Dispatcher.

Variable tweet : Type.
Variable Tweet : json -> result tweet.
Variable remote : string -> result response.

Implicit Types (queries : list string) (sched : list nat) (w : world).

Lemma res_cell_fst queries sched w :
  fst (res_cell Tweet remote queries sched w)
  = match fst (collect_queries Tweet remote queries sched w) with
    | Some (Ok responses) => Some (Ok (List.concat responses))
    | Some (Raised e) => Some (Raised e)
    | None => None
    end.
Proof.
  unfold res_cell.
  destruct (collect_queries _ _ _ _ _) as [[[responses|e]|] w']; reflexivity.
Qed.

(** The log of a call: the session, the requests in the order of the
    queries and, when the call has ended, the close. *)
Lemma collect_queries_log queries sched w :
  let s := sessions_created w in
  let out := collect_queries Tweet remote queries sched w in
  sessions_created (snd out) = S s
  /\ net_log (snd out)
     = net_log w ++ SessionOpen s :: map (Request s) queries
         ++ match fst out with Some _ => [SessionClose s] | None => [] end.
Proof.
  intros s out. subst out. unfold collect_queries. simpl.
  pose proof (gather_tasks_world Tweet remote s queries sched
                {| sessions_created := S s; net_log := net_log w ++ [SessionOpen s] |})
    as Hw.
  fold s.
  destruct (gather _ _ _ _) as [[r|] w2]; simpl in *; subst w2; simpl;
    split; auto; rewrite <- !app_assoc; simpl; auto.
  now rewrite app_nil_r.
Qed.

End Dispatcher.

Lemma events_since_app (w w' : world) (evs : list event) :
  net_log w' = net_log w ++ evs -> events_since w w' = evs.
Proof.
  unfold events_since. intros ->.
  rewrite skipn_app, skipn_all, Nat.sub_diag. reflexivity.
Qed.

Lemma filter_requests (p : event -> bool) (s : session) (queries : list string) :
  (forall q, p (Request s q) = false) ->
  filter p (map (Request s) queries) = [].
Proof.
  intros Hp. induction queries as [|q queries IH]; simpl; auto.
  now rewrite Hp.
Qed.

(** Any order of arrival of the two events of each of [n] fetches is a
    schedule that covers them. *)
Lemma permutation_covers (sched : list nat) (n : nat) :
  Permutation sched (seq 0 n ++ seq 0 n) -> covers sched n = true.
Proof.
  intros Hp. unfold covers. apply forallb_forall. intros i Hi.
  apply Nat.leb_le.
  rewrite (Permutation_count_occ Nat.eq_dec) in Hp. rewrite Hp, count_occ_app.
  assert (H1 : count_occ Nat.eq_dec (seq 0 n) i = 1).
  { apply NoDup_count_occ'; [apply seq_NoDup | exact Hi]. }
  lia.
Qed.

(** C1: for every list of queries, empty or not, whose fetches all
    succeed, and for every order in which the events of the network
    arrive, [collect_queries] returns the list of the ResultSets, one for
    each query and in the order of the queries; the cell that calls it
    flattens that list, and its [res] is the concatenation of the
    ResultSets in the order of the queries. *)
Theorem collect_queries_submission_order
  (tweet : Type) (Tweet : json -> result tweet) (remote : string -> result response)
  (queries : list string) (result_sets : list (list tweet))
  (sched : list nat) (w : world)
  (Hok : map (result_set Tweet remote) queries = map (@Ok _) result_sets)
  (Hsched : covers sched (List.length queries) = true) :
  fst (collect_queries Tweet remote queries sched w) = Some (Ok result_sets)
  /\ fst (res_cell Tweet remote queries sched w)
     = Some (Ok (List.concat result_sets)).
Proof.
  assert (H : fst (collect_queries Tweet remote queries sched w)
              = Some (Ok result_sets)).
  { rewrite collect_queries_fst.
    destruct queries as [|q queries].
    - destruct result_sets; [reflexivity | discriminate].
    - rewrite gather_tasks_result by discriminate.
      apply run_loop_completes.
      + now rewrite tasks_settle.
      + now apply tasks_all_returned.
      + now apply tasks_covered. }
  split; [exact H|].
  now rewrite res_cell_fst, H.
Qed.

Lemma collect_queries_submission_order_witness :
  fst (res_cell mock_Tweet mock_endpoint ["q1"; "q2"; "q3"] [2; 0; 1; 1; 2; 0]
         fresh_world)
  = Some (Ok [JInt 1; JInt 2; JInt 3; JInt 4]).
Proof.
  exact (proj2 (@collect_queries_submission_order json mock_Tweet mock_endpoint
                  ["q1"; "q2"; "q3"] [[JInt 1]; [JInt 2; JInt 3]; [JInt 4]]
                  [2; 0; 1; 1; 2; 0] fresh_world eq_refl eq_refl)).
Defined.

(** C1 as it is written fails: with the three queries of the scenario,
    what [collect_queries] returns is a list of three lists, not the flat
    list of the four records. *)
Lemma collect_queries_returns_nested :
  map (result_set mock_Tweet mock_endpoint) ["q1"; "q2"; "q3"]
  = map (@Ok _) [[JInt 1]; [JInt 2; JInt 3]; [JInt 4]]
  /\ ~ returns_concatenation
        (fst (collect_queries mock_Tweet mock_endpoint ["q1"; "q2"; "q3"]
                [0; 1; 2; 0; 1; 2] fresh_world))
        [[JInt 1]; [JInt 2; JInt 3]; [JInt 4]].
Proof.
  split; [reflexivity|].
  intros (responses & Hret & Hflat).
  vm_compute in Hret. injection Hret as <-.
  vm_compute in Hflat. discriminate.
Qed.

Section Progress.

Variable remote : string -> result response.
Variable A : Type.

Lemma deliver_settle (i : nat) (cs : list (coro A)) :
  map (settle remote) (deliver remote i cs) = map (settle remote) cs.
Proof.
  unfold deliver.
  destruct (nth_error cs i) as [[a|e|R op k]|] eqn:Hi; try reflexivity.
  eapply map_list_set; eauto.
Qed.

(** The events change nothing to what a child settles with. *)
Lemma children_after_settle (p : list nat) (cs : list (coro A)) :
  map (settle remote) (children_after remote p cs) = map (settle remote) cs.
Proof.
  revert cs. induction p as [|i p IH]; intros cs; [reflexivity|].
  unfold children_after in *. simpl. now rewrite IH, deliver_settle.
Qed.

End Progress.

(** C2: for every batch in which at least one fetch fails, of two
    queries or of any other number, and every order of arrival, the call
    of [collect_queries] fails as a whole.  The exception it raises is the
    one of the fetch that fails first: the schedule is a prefix [p] after
    which no fetch has raised, then the event [i] with which the fetch of
    the query at position [i] raises [e].  No schedule whatever makes the
    call return a list of results. *)
Theorem collect_queries_fails_as_a_whole
  (tweet : Type) (Tweet : json -> result tweet) (remote : string -> result response)
  (queries : list string) (sched : list nat) (w : world)
  (Hfail : exists q e, In q queries /\ result_set Tweet remote q = Raised e)
  (Hsched : covers sched (List.length queries) = true) :
  let tasks := map (fetch_tweets_fancy Tweet (sessions_created w)) queries in
  (exists p i rest q e,
      sched = p ++ i :: rest
      /\ first_raised (children_after remote p tasks) = None
      /\ nth_error (children_after remote (p ++ [i]) tasks) i = Some (Raise e)
      /\ nth_error queries i = Some q
      /\ result_set Tweet remote q = Raised e
      /\ fst (collect_queries Tweet remote queries sched w) = Some (Raised e)
      /\ fst (res_cell Tweet remote queries sched w) = Some (Raised e))
  /\ (forall sched' responses,
        fst (collect_queries Tweet remote queries sched' w) <> Some (Ok responses)).
Proof.
  intros tasks.
  destruct Hfail as (q & e & Hin & Hq).
  assert (Hne : queries <> []) by (intros ->; destruct Hin).
  apply In_nth_error in Hin as (j & Hj).
  assert (Hjt : nth_error tasks j = Some (fetch_tweets_fancy Tweet (sessions_created w) q))
    by (unfold tasks; now apply map_nth_error).
  assert (Hjs : settle remote (fetch_tweets_fancy Tweet (sessions_created w) q) = Raised e)
    by now rewrite fetch_tweets_fancy_settle.
  split.
  - destruct (@run_loop_first_failure remote _ sched tasks
                (emit (map (Request (sessions_created w)) queries) (snd (ClientSession w))))
      as (p & i & rest & e' & Hs & Hp & Hi & Hrun).
    + apply tasks_first_raised.
    + eauto.
    + now apply tasks_covered.
    + assert (Hc : fst (collect_queries Tweet remote queries sched w) = Some (Raised e')).
      { rewrite collect_queries_fst, gather_tasks_result; auto. }
      assert (Hset : nth_error (map (settle remote) tasks) i = Some (Raised e')).
      { rewrite <- (children_after_settle remote (p ++ [i]) tasks).
        now apply (map_nth_error (settle remote)) in Hi. }
      unfold tasks in Hset. rewrite tasks_settle in Hset.
      rewrite nth_error_map in Hset.
      destruct (nth_error queries i) as [q'|] eqn:Hq'; simpl in Hset; [|discriminate].
      injection Hset as Hset.
      exists p, i, rest, q', e'.
      repeat split; auto.
      now rewrite res_cell_fst, Hc.
  - intros sched' responses.
    rewrite collect_queries_fst, gather_tasks_result; auto.
    exact (run_loop_no_partial remote sched' tasks _ j Hjt Hjs).
Qed.

Lemma collect_queries_fails_as_a_whole_witness :
  exists e,
    fst (collect_queries mock_Tweet mock_endpoint ["q1"; "empty"; "down"]
           [0; 2; 1; 1; 0; 2] fresh_world)
    = Some (Raised e).
Proof.
  destruct (@collect_queries_fails_as_a_whole json mock_Tweet mock_endpoint
              ["q1"; "empty"; "down"] [0; 2; 1; 1; 0; 2] fresh_world
              (ex_intro _ "down" (ex_intro _ (ClientError "connection refused")
                 (conj (or_intror (or_intror (or_introl eq_refl))) eq_refl)))
              eq_refl)
    as [(p & i & rest & q & e & _ & _ & _ & _ & _ & Hc & _) _].
  exists e. exact Hc.
Defined.

(** Which exception it is depends on the order of arrival: the refused
    connection when it is known first, the missing field when the body
    [{}] is read first. *)
Example collect_queries_first_failure :
  fst (collect_queries mock_Tweet mock_endpoint ["q1"; "empty"; "down"]
         [0; 2; 1; 1; 0; 2] fresh_world)
  = Some (Raised (ClientError "connection refused"))
  /\ fst (collect_queries mock_Tweet mock_endpoint ["q1"; "empty"; "down"]
            [1; 1; 2; 0; 2; 0] fresh_world)
     = Some (Raised (KeyError "results")).
Proof.
  split; reflexivity.
Qed.

(** ** The session *)

(** A call whose schedule covers its fetches ends, with a list of
    results or with an exception. *)
Lemma collect_queries_exits
  (tweet : Type) (Tweet : json -> result tweet) (remote : string -> result response)
  (queries : list string) (sched : list nat) (w : world) :
  covers sched (List.length queries) = true ->
  exists outcome, fst (collect_queries Tweet remote queries sched w) = Some outcome.
Proof.
  intros Hsched.
  assert (Hcases : (exists rss, map (result_set Tweet remote) queries = map (@Ok _) rss)
                   \/ (exists j c e,
                          nth_error (map (fetch_tweets_fancy Tweet (sessions_created w))
                                       queries) j = Some c
                          /\ settle remote c = Raised e)).
  { clear Hsched. induction queries as [|q queries IH].
    - left. now exists [].
    - destruct (result_set Tweet remote q) as [rs|e] eqn:Hq.
      + destruct IH as [(rss & Hrss)|(j & c & e & Hj & Hc)].
        * left. exists (rs :: rss). simpl. now rewrite Hq, Hrss.
        * right. now exists (S j), c, e.
      + right. exists 0, (fetch_tweets_fancy Tweet (sessions_created w) q), e.
        split; [reflexivity | now rewrite fetch_tweets_fancy_settle]. }
  rewrite collect_queries_fst.
  destruct queries as [|q queries]; [now exists (Ok []) |].
  rewrite gather_tasks_result by discriminate.
  destruct Hcases as [(rss & Hrss)|Hfail].
  - exists (Ok rss). apply run_loop_completes.
    + now rewrite tasks_settle.
    + now apply tasks_all_returned.
    + now apply tasks_covered.
  - destruct (@run_loop_first_failure remote _ sched
                (map (fetch_tweets_fancy Tweet (sessions_created w)) (q :: queries))
                (emit (map (Request (sessions_created w)) (q :: queries))
                   (snd (ClientSession w))))
      as (_ & _ & _ & e & _ & _ & _ & Hrun); auto.
    + apply tasks_first_raised.
    + now apply tasks_covered.
    + now exists (Raised e).
Qed.

(** C4: on every exit of a call of [collect_queries], with a list of
    results or with an exception, the call has opened one session and
    closed it once: what it has written to the log is the opening of the
    session, the requests of the batch on that session, in the order of
    the queries, and the close of the session. *)
Theorem collect_queries_session_once
  (tweet : Type) (Tweet : json -> result tweet) (remote : string -> result response)
  (queries : list string) (sched : list nat) (w w' : world)
  (outcome : result (list (list tweet)))
  (Hexit : collect_queries Tweet remote queries sched w = (Some outcome, w')) :
  let s := sessions_created w in
  events_since w w' = SessionOpen s :: map (Request s) queries ++ [SessionClose s]
  /\ acquisitions (events_since w w') = 1
  /\ releases (events_since w w') = 1
  /\ sessions_created w' = S s.
Proof.
  intros s.
  destruct (collect_queries_log Tweet remote queries sched w) as [Hn Hlog].
  rewrite Hexit in Hn, Hlog. simpl in Hn, Hlog. fold s in Hn, Hlog.
  apply events_since_app in Hlog. rewrite Hlog.
  unfold acquisitions, releases. simpl.
  rewrite !filter_app, !filter_requests by reflexivity.
  auto.
Qed.

Lemma collect_queries_session_once_witness :
  let w' := snd (collect_queries mock_Tweet mock_endpoint ["q1"; "empty"; "down"]
                   [0; 2; 1; 1; 0; 2] fresh_world) in
  acquisitions (events_since fresh_world w') = 1
  /\ releases (events_since fresh_world w') = 1.
Proof.
  intros w'.
  destruct (@collect_queries_session_once json mock_Tweet mock_endpoint
              ["q1"; "empty"; "down"] [0; 2; 1; 1; 0; 2] fresh_world w'
              (Raised (ClientError "connection refused")) eq_refl)
    as (_ & Ha & Hr & _).
  split; assumption.
Defined.

(** C5: the call with no query returns the empty list, which the cell
    flattens to the empty list, whatever the schedule; it opens a session
    and closes it and makes no request. *)
Theorem collect_queries_empty
  (tweet : Type) (Tweet : json -> result tweet) (remote : string -> result response)
  (sched : list nat) (w : world) :
  let s := sessions_created w in
  let out := collect_queries Tweet remote [] sched w in
  fst out = Some (Ok [])
  /\ fst (res_cell Tweet remote [] sched w) = Some (Ok [])
  /\ events_since w (snd out) = [SessionOpen s; SessionClose s]
  /\ network_calls (events_since w (snd out)) = 0.
Proof.
  intros s out.
  assert (Hlog : events_since w (snd out) = [SessionOpen s; SessionClose s]).
  { apply events_since_app. subst out. unfold collect_queries, gather. simpl.
    now rewrite <- !app_assoc. }
  repeat split; auto.
  now rewrite Hlog.
Qed.

(** ** The fetchers and the field ["results"] *)

(** C6, as it holds: on a response that arrives and whose body parses,
    [fetch_tweets_fancy] subscripts the body with ["results"] and returns
    the [Tweet]s made of the elements of that field; when the body is an
    object without the field it raises [KeyError('results')].
    [fetch_tweets_coroutine] returns the whole parsed body, with the
    field or without it: it is the cell that calls it that subscripts the
    body, and that cell computes what [fetch_tweets_fancy] returns. *)
Theorem fetchers_results_field
  (tweet : Type) (Tweet : json -> result tweet) (remote : string -> result response)
  (s : session) (url : string) (w : world) (resp : response) (body : json)
  (Hresp : remote url = Ok resp)
  (Hbody : json_body resp = Ok body) :
  let fancy := fst (run_until_complete remote (fetch_tweets_fancy Tweet s url) w) in
  (forall items records,
      body = JDict items -> dict_get "results" items = Some (JList records) ->
      fancy = comprehension Tweet records)
  /\ (forall items,
         body = JDict items -> dict_get "results" items = None ->
         fancy = Raised (KeyError "results"))
  /\ fancy = result_bind (getitem body "results") (fun results =>
             result_bind (iterate results) (fun items => comprehension Tweet items))
  /\ fst (fetch_tweets_coroutine remote url w) = Ok body
  /\ fst (tweets_cell Tweet remote url w) = fancy.
Proof.
  intros fancy.
  assert (Hf : fancy = result_bind (getitem body "results") (fun results =>
               result_bind (iterate results) (fun items => comprehension Tweet items))).
  { subst fancy. rewrite run_until_complete_settle, fetch_tweets_fancy_settle.
    unfold result_set. rewrite Hresp. simpl. now rewrite Hbody. }
  assert (Hc : fst (fetch_tweets_coroutine remote url w) = Ok body).
  { unfold fetch_tweets_coroutine. cbn [ClientSession].
    destruct (run_until_complete remote
                (fetch_tweets_coroutine_body (sessions_created w) url) _)
      as [r w2] eqn:Hrun.
    apply (f_equal fst) in Hrun.
    rewrite run_until_complete_settle in Hrun.
    unfold fetch_tweets_coroutine_body in Hrun. simpl in Hrun.
    rewrite Hresp in Hrun. simpl in Hrun. rewrite Hbody in Hrun.
    simpl in *. congruence. }
  repeat split; auto.
  - intros items records -> Hget. rewrite Hf. simpl. now rewrite Hget.
  - intros items -> Hget. rewrite Hf. simpl. now rewrite Hget.
  - unfold tweets_cell.
    destruct (fetch_tweets_coroutine remote url w) as [r w1].
    simpl in *. subst r. simpl. now rewrite Hf.
Qed.

Lemma fetchers_results_field_witness :
  fst (run_until_complete mock_endpoint (fetch_tweets_fancy mock_Tweet 0 "q2")
         fresh_world)
  = Ok [JInt 2; JInt 3]
  /\ fst (fetch_tweets_coroutine mock_endpoint "q2" fresh_world)
     = Ok (JDict [("results", JList [JInt 2; JInt 3])]).
Proof.
  destruct (@fetchers_results_field json mock_Tweet mock_endpoint 0 "q2" fresh_world
              (Response (Ok (JDict [("results", JList [JInt 2; JInt 3])])))
              (JDict [("results", JList [JInt 2; JInt 3])]) eq_refl eq_refl)
    as (Hfancy & _ & _ & Hcoro & _).
  split; [|exact Hcoro].
  exact (Hfancy _ _ eq_refl eq_refl).
Defined.

(** C6 as it is written fails for [fetch_tweets_coroutine]: on the body
    [{"results": [2, 3]}] it returns the body, which is not the field
    [[2, 3]], and on the body [{}], where the field is absent, it returns
    [{}] and raises nothing. *)
Lemma fetch_tweets_coroutine_whole_body :
  (getitem (JDict [("results", JList [JInt 2; JInt 3])]) "results"
   = Ok (JList [JInt 2; JInt 3])
   /\ fst (fetch_tweets_coroutine mock_endpoint "q2" fresh_world)
      = Ok (JDict [("results", JList [JInt 2; JInt 3])])
   /\ fst (fetch_tweets_coroutine mock_endpoint "q2" fresh_world)
      <> Ok (JList [JInt 2; JInt 3]))
  /\ (getitem (JDict []) "results" = Raised (KeyError "results")
      /\ fst (fetch_tweets_coroutine mock_endpoint "empty" fresh_world)
         = Ok (JDict [])
      /\ ~ (exists e, fst (fetch_tweets_coroutine mock_endpoint "empty" fresh_world)
                      = Raised e)).
Proof.
  repeat split; try reflexivity.
  - vm_compute. discriminate.
  - intros (e & He). vm_compute in He. discriminate.
Qed.

(** ** The builder and the state *)

Section PyFacts.

Lemma extends_refl (st : pystate) : extends st st.
Proof.
  split; [reflexivity|]. exists []. now rewrite app_nil_r.
Qed.

Lemma extends_trans (st1 st2 st3 : pystate) :
  extends st1 st2 -> extends st2 st3 -> extends st1 st3.
Proof.
  intros [Ho1 (f1 & Hf1)] [Ho2 (f2 & Hf2)]. split; [congruence|].
  exists (f1 ++ f2). now rewrite Hf2, Hf1, app_assoc.
Qed.

Lemma extends_lookup (st st' : pystate) (l : loc) (items : list string) :
  extends st st' ->
  nth_error (objects st) l = Some items ->
  nth_error (objects st') l = Some items.
Proof.
  intros [_ (fresh & ->)] Hl.
  rewrite nth_error_app1; [exact Hl|].
  apply nth_error_Some. congruence.
Qed.

Lemma no_side_effect_ret (A : Type) (a : A) : no_side_effect (py_ret a).
Proof.
  intros st. apply extends_refl.
Qed.

Lemma no_side_effect_bind (A B : Type) (c : Py A) (f : A -> Py B) :
  no_side_effect c -> (forall a, no_side_effect (f a)) ->
  no_side_effect (py_bind c f).
Proof.
  intros Hc Hf st. unfold py_bind.
  specialize (Hc st).
  destruct (c st) as [[a|e] st']; simpl in *; [|exact Hc].
  eapply extends_trans; [exact Hc | apply Hf].
Qed.

Lemma no_side_effect_new_list (items : list string) : no_side_effect (new_list items).
Proof.
  intros st. split; [reflexivity|]. now exists [items].
Qed.

Lemma no_side_effect_iter_strings (r : pyref) : no_side_effect (iter_strings r).
Proof.
  intros st. unfold iter_strings.
  destruct r as [s|l]; [apply extends_refl|].
  destruct (nth_error (objects st) l); apply extends_refl.
Qed.

Lemma no_side_effect_str_join (sep : string) (r : pyref) :
  no_side_effect (str_join sep r).
Proof.
  apply no_side_effect_bind; [apply no_side_effect_iter_strings|].
  intros items. apply no_side_effect_ret.
Qed.

(** The body of the builder is made of statements that build new
    objects and read: it has no side effect. *)
Lemma gen_query_url_run_no_side_effect (url : string) (terms : pyref) (m : Z) :
  no_side_effect (gen_query_url_run url terms m).
Proof.
  unfold gen_query_url_run.
  apply no_side_effect_bind.
  - destruct terms; [apply no_side_effect_new_list | apply no_side_effect_ret].
  - intros terms'. apply no_side_effect_bind; [apply no_side_effect_str_join|].
    intros joined. apply no_side_effect_bind; [apply no_side_effect_new_list|].
    intros pieces. apply no_side_effect_str_join.
Qed.

(** [join] on a list object that the state holds. *)
Lemma str_join_list (sep : string) (l : loc) (items : list string) (st : pystate) :
  nth_error (objects st) l = Some items ->
  str_join sep (RefList l) st = (Ok (PyStr.join sep items), st).
Proof.
  intros Hl. unfold str_join, py_bind, iter_strings. now rewrite Hl.
Qed.

Lemma nth_error_fresh (A : Type) (l : list A) (x : A) :
  nth_error (l ++ [x]) (List.length l) = Some x.
Proof.
  rewrite nth_error_app2 by lia. now rewrite Nat.sub_diag.
Qed.

(** The string that the body returns is the one of [gen_query_url] on
    what the arguments hold. *)
Lemma gen_query_url_run_value
  (url : string) (terms : pyref) (m : Z) (T : terms_arg) (st : pystate) :
  terms_value st terms = Some T ->
  fst (gen_query_url_run url terms m st) = Ok (gen_query_url url T m).
Proof.
  intros HT. unfold gen_query_url_run.
  destruct terms as [s|l]; simpl in HT.
  - injection HT as <-.
    unfold py_bind at 1. unfold str_split. cbn [new_list].
    unfold py_bind at 1.
    rewrite (@str_join_list "%20" (List.length (objects st)) (PyStr.split s))
      by (cbn [objects]; apply nth_error_fresh).
    unfold py_bind at 1. cbn [new_list objects outside].
    erewrite str_join_list by apply nth_error_fresh.
    reflexivity.
  - destruct (nth_error (objects st) l) as [items|] eqn:Hl; [|discriminate].
    injection HT as <-.
    unfold py_bind at 1. cbn [py_ret].
    unfold py_bind at 1. rewrite (str_join_list "%20" _ _ Hl).
    unfold py_bind at 1. cbn [new_list objects outside].
    erewrite str_join_list by apply nth_error_fresh.
    reflexivity.
Qed.

End PyFacts.

(** C8: the builder is deterministic and has no side effect.  Run from
    any two states in which its arguments hold the same values, the
    body returns the same string, the one that the three values
    determine; and a run changes nothing that was there: the world
    outside is as it was, sessions and log, every list object of the
    state is as it was, the caller's list of terms among them, and what
    the run adds is new objects only. *)
Theorem gen_query_url_pure
  (url : string) (terms : pyref) (max_results : Z) (T : terms_arg)
  (st1 st2 : pystate)
  (H1 : terms_value st1 terms = Some T)
  (H2 : terms_value st2 terms = Some T) :
  fst (gen_query_url_run url terms max_results st1)
  = Ok (gen_query_url url T max_results)
  /\ fst (gen_query_url_run url terms max_results st2)
     = fst (gen_query_url_run url terms max_results st1)
  /\ no_side_effect (gen_query_url_run url terms max_results)
  /\ outside (snd (gen_query_url_run url terms max_results st1)) = outside st1
  /\ (forall l items,
         nth_error (objects st1) l = Some items ->
         nth_error (objects (snd (gen_query_url_run url terms max_results st1))) l
         = Some items)
  /\ terms_value (snd (gen_query_url_run url terms max_results st1)) terms = Some T.
Proof.
  pose proof (gen_query_url_run_no_side_effect url terms max_results) as Hpure.
  pose proof (Hpure st1) as Hext.
  split; [now apply gen_query_url_run_value|].
  split.
  { rewrite (@gen_query_url_run_value url terms max_results T st1 H1).
    exact (@gen_query_url_run_value url terms max_results T st2 H2). }
  split; [exact Hpure|].
  split; [apply Hext|].
  split; [intros l items; now apply extends_lookup|].
  destruct terms as [s|l]; [exact H1|].
  simpl in *.
  destruct (nth_error (objects st1) l) as [items|] eqn:Hl; [|discriminate].
  now rewrite (extends_lookup _ Hext Hl).
Qed.

Lemma gen_query_url_pure_witness :
  fst (gen_query_url_run "https://x/?" (RefList 1) 100
         (PyState [["ai"]; ["just"; "bought"; "a"; "house"]] fresh_world))
  = Ok "https://x/?query=just%20bought%20a%20house&maxResults=100"
  /\ fst (gen_query_url_run "https://x/?" (RefList 1) 100
            (PyState [[]; ["just"; "bought"; "a"; "house"]; ["cats"]]
               (World 3 [SessionOpen 2])))
     = fst (gen_query_url_run "https://x/?" (RefList 1) 100
              (PyState [["ai"]; ["just"; "bought"; "a"; "house"]] fresh_world)).
Proof.
  destruct (@gen_query_url_pure "https://x/?" (RefList 1) 100
              (TermSeq ["just"; "bought"; "a"; "house"])
              (PyState [["ai"]; ["just"; "bought"; "a"; "house"]] fresh_world)
              (PyState [[]; ["just"; "bought"; "a"; "house"]; ["cats"]]
                 (World 3 [SessionOpen 2]))
              eq_refl eq_refl)
    as (Hv & Hd & _).
  split; [exact Hv | exact Hd].
Defined.

(** Not every statement is like that: [append] changes the list it is
    called on, and entering a [ClientSession] changes the world. *)
Example list_append_has_side_effect :
  ~ no_side_effect (list_append (RefList 0) "googlebro").
Proof.
  intros H.
  destruct (H (PyState [["memes"]] fresh_world)) as [_ (fresh & Hf)].
  simpl in Hf. destruct fresh; discriminate.
Qed.

Example ClientSession_has_side_effect :
  ~ no_side_effect (on_world ClientSession).
Proof.
  intros H.
  destruct (H (PyState [] fresh_world)) as [Ho _].
  discriminate.
Qed.

(** ** More on the query builder *)

Section BuilderFacts.

Local Open Scope string_scope.

Lemma split_from_word (w word rest : string) :
  PyStr.forallb_str (fun c => negb (PyStr.isspace c)) w = true ->
  PyStr.split_from word (w ++ rest) = PyStr.split_from (word ++ w) rest.
Proof.
  revert word.
  induction w as [|c w IH]; intros word Hw; simpl.
  - now rewrite append_empty_r.
  - simpl in Hw. apply andb_true_iff in Hw as [Hc Hw].
    apply negb_true_iff in Hc. rewrite Hc, (IH _ Hw).
    now rewrite append_assoc.
Qed.

Lemma split_from_done (word : string) :
  word <> "" -> PyStr.split_from word "" = [word].
Proof.
  destruct word; [congruence | reflexivity].
Qed.

Lemma split_from_space (word rest : string) :
  word <> "" ->
  PyStr.split_from word (String " " rest) = word :: PyStr.split_from "" rest.
Proof.
  destruct word; [congruence | reflexivity].
Qed.

(** Words joined by one space split back into the same words. *)
Lemma split_join (T : list string) :
  Forall is_word T -> PyStr.split (PyStr.join " " T) = T.
Proof.
  unfold PyStr.split.
  induction T as [|x rest IH]; intros HT; [reflexivity|].
  inversion HT as [|? ? [Hne Hx] Hrest]; subst.
  destruct rest as [|y rest].
  - simpl. rewrite <- (append_empty_r x) at 1.
    rewrite (split_from_word x "" "" Hx). simpl.
    now apply split_from_done.
  - change (PyStr.join " " (x :: y :: rest))
      with (x ++ String " " (PyStr.join " " (y :: rest))).
    rewrite (split_from_word x "" _ Hx). simpl append.
    rewrite split_from_space by assumption.
    f_equal. now apply IH.
Qed.

Lemma join_no_space (sep : string) (T : list string) :
  PyStr.forallb_str (fun c => negb (PyStr.isspace c)) sep = true ->
  Forall is_word T ->
  PyStr.forallb_str (fun c => negb (PyStr.isspace c)) (PyStr.join sep T) = true.
Proof.
  intros Hsep.
  induction T as [|x rest IH]; intros HT; [reflexivity|].
  inversion HT as [|? ? [_ Hx] Hrest]; subst.
  destruct rest as [|y rest]; [exact Hx|].
  change (PyStr.join sep (x :: y :: rest))
    with (x ++ sep ++ PyStr.join sep (y :: rest)).
  rewrite !forallb_str_app, Hx, Hsep. simpl. now apply IH.
Qed.

End BuilderFacts.

(** X1: when no term is empty and no term has whitespace in it, the
    builder returns the same query for the sequence of the terms and for
    the single string that has the terms separated by one space. *)
Theorem gen_query_url_join_split (E : string) (T : list string) (M : Z)
  (HT : Forall is_word T) :
  PyStr.split (PyStr.join " " T) = T
  /\ gen_query_url E (TermStr (PyStr.join " " T)) M = gen_query_url E (TermSeq T) M.
Proof.
  assert (H : PyStr.split (PyStr.join " " T) = T) by now apply split_join.
  split; [exact H|].
  unfold gen_query_url. now rewrite H.
Qed.

Lemma gen_query_url_join_split_witness :
  gen_query_url "https://x/?" (TermStr "just bought a house") 100
  = gen_query_url "https://x/?" (TermSeq ["just"; "bought"; "a"; "house"]) 100.
Proof.
  refine (proj2 (@gen_query_url_join_split "https://x/?"
                   ["just"; "bought"; "a"; "house"] 100 _)).
  repeat constructor; discriminate.
Defined.

(** X2: for a single string of terms, whatever whitespace it has and
    wherever, the part of the query between ["query="] and
    ["&maxResults="] has no whitespace in it, and the query is the one of
    the string with its words separated by one space. *)
Theorem gen_query_url_string_no_whitespace (E S : string) (M : Z) :
  gen_query_url E (TermStr S) M
  = (E ++ "query=" ++ PyStr.join "%20" (PyStr.split S)
       ++ "&maxResults=" ++ PyStr.str_int M)%string
  /\ PyStr.forallb_str (fun c => negb (PyStr.isspace c))
       (PyStr.join "%20" (PyStr.split S)) = true
  /\ gen_query_url E (TermStr (PyStr.join " " (PyStr.split S))) M
     = gen_query_url E (TermStr S) M.
Proof.
  split; [|split].
  - change (gen_query_url E (TermStr S) M)
      with (gen_query_url E (TermSeq (PyStr.split S)) M).
    apply gen_query_url_unfold.
  - apply join_no_space; [reflexivity | apply split_words].
  - unfold gen_query_url. now rewrite (split_join (split_words S)).
Qed.

(** X3: the builder does not tell a term that holds ["%20"] from two
    terms: the sequence with the term [a%20b] at some place and the
    sequence with the two terms [a] and [b] at that place give the same
    query. *)
Theorem gen_query_url_separator_collision
  (E a b : string) (before after : list string) (M : Z) :
  gen_query_url E (TermSeq (before ++ (a ++ "%20" ++ b)%string :: after)) M
  = gen_query_url E (TermSeq (before ++ a :: b :: after)) M.
Proof.
  assert (H : PyStr.join "%20" (before ++ (a ++ "%20" ++ b)%string :: after)
              = PyStr.join "%20" (before ++ a :: b :: after)).
  { rewrite (join_app_cons "%20" a before (b :: after)), join_app_cons.
    cbn [flatten map fold_right]. now rewrite !append_assoc. }
  now rewrite !gen_query_url_unfold, H.
Qed.

(** ** More on the fetch of one query *)

Lemma comprehension_Forall2 (A B : Type) (f : A -> result B)
  (items : list A) (out : list B) :
  comprehension f items = Ok out <-> Forall2 (fun x y => f x = Ok y) items out.
Proof.
  revert out.
  induction items as [|x items IH]; intros out; simpl.
  - split.
    + intros [= <-]. constructor.
    + intros H. inversion H. reflexivity.
  - destruct (f x) as [y|e] eqn:Hx; simpl.
    + destruct (comprehension f items) as [ys|e] eqn:Hc; simpl.
      * split.
        -- intros [= <-]. constructor; [exact Hx | now apply IH].
        -- intros H. inversion H as [|? y' ? ys' Hy Hys]; subst.
           apply IH in Hys. congruence.
      * split; [discriminate|].
        intros H. inversion H as [|? y' ? ys' Hy Hys]; subst.
        apply IH in Hys. discriminate.
    + split; [discriminate|].
      intros H. inversion H; subst. congruence.
Qed.

Section FetcherFacts.

Variable tweet : Type.
Variable Tweet : json -> result tweet.
Variable remote : string -> result response.

Lemma fetch_tweets_coroutine_run (url : string) (w : world) :
  fetch_tweets_coroutine remote url w
  = (result_bind (remote url) json_body,
     {| sessions_created := S (sessions_created w);
        net_log := net_log w ++ [SessionOpen (sessions_created w);
                                 Request (sessions_created w) url;
                                 SessionClose (sessions_created w)] |}).
Proof.
  unfold fetch_tweets_coroutine, fetch_tweets_coroutine_body, session_close, emit.
  simpl.
  destruct (remote url) as [resp|e]; simpl.
  - destruct (json_body resp) as [body|e]; simpl;
      rewrite <- !app_assoc; reflexivity.
  - rewrite <- !app_assoc. reflexivity.
Qed.

Lemma result_set_sync_value (url : string) :
  result_set Tweet remote url
  = result_bind (sync_value remote url) (fun results =>
    result_bind (iterate results) (fun items =>
    comprehension Tweet items)).
Proof.
  unfold result_set, sync_value.
  destruct (remote url) as [resp|e]; simpl; [|reflexivity].
  destruct (json_body resp) as [body|e]; reflexivity.
Qed.

End FetcherFacts.

(** X4: the three ways of the notebook to get the tweets of one query
    give the same outcome, list of tweets or exception, for every URL,
    when the endpoint answers the two clients alike: the cell around
    [sync_tweets], the cell around [fetch_tweets_coroutine], and
    [fetch_tweets_fancy]. *)
Theorem single_fetch_implementations_agree
  (tweet : Type) (Tweet : json -> result tweet) (remote : string -> result response)
  (s : session) (url : string) (w : world) (sent : list string) :
  fst (tweets_sync_cell Tweet remote url sent) = result_set Tweet remote url
  /\ fst (tweets_cell Tweet remote url w) = result_set Tweet remote url
  /\ fst (run_until_complete remote (fetch_tweets_fancy Tweet s url) w)
     = result_set Tweet remote url.
Proof.
  split; [|split].
  - unfold tweets_sync_cell, sync_tweets. simpl.
    now rewrite result_set_sync_value.
  - unfold tweets_cell. rewrite fetch_tweets_coroutine_run.
    unfold result_set. simpl.
    destruct (remote url) as [resp|e]; simpl; [|reflexivity].
    destruct (json_body resp) as [body|e]; reflexivity.
  - now rewrite run_until_complete_settle, fetch_tweets_fancy_settle.
Qed.

(** X5: every call of [fetch_tweets_coroutine] opens a session of its
    own, makes one request on it and closes it, whether the call returns
    a body or raises; what it returns is the parsed body, what it raises
    is the exception of the exchange or of the parsing. *)
Theorem fetch_tweets_coroutine_session
  (remote : string -> result response) (url : string) (w : world) :
  let s := sessions_created w in
  let out := fetch_tweets_coroutine remote url w in
  fst out = result_bind (remote url) json_body
  /\ events_since w (snd out) = [SessionOpen s; Request s url; SessionClose s]
  /\ sessions_created (snd out) = S s.
Proof.
  intros s out. subst out. rewrite fetch_tweets_coroutine_run. simpl.
  repeat split. now apply events_since_app.
Qed.

(** X6: when the body of the response is an object whose field
    ["results"] is a list of records, [fetch_tweets_fancy] returns a
    list exactly when [Tweet] accepts every record, and the list then
    has one tweet for each record, in the order of the records; when
    [Tweet] raises on a record the fetch raises and returns no shorter
    list. *)
Theorem fetch_tweets_fancy_one_tweet_per_record
  (tweet : Type) (Tweet : json -> result tweet) (remote : string -> result response)
  (s : session) (url : string) (w : world)
  (resp : response) (items : list (string * json)) (records : list json)
  (Hresp : remote url = Ok resp)
  (Hbody : json_body resp = Ok (JDict items))
  (Hfield : dict_get "results" items = Some (JList records)) :
  let fancy := fst (run_until_complete remote (fetch_tweets_fancy Tweet s url) w) in
  (forall ts, fancy = Ok ts <-> Forall2 (fun r t => Tweet r = Ok t) records ts)
  /\ (forall ts, fancy = Ok ts -> List.length ts = List.length records)
  /\ (forall r e, In r records -> Tweet r = Raised e -> exists e', fancy = Raised e').
Proof.
  intros fancy.
  assert (Hf : fancy = comprehension Tweet records).
  { subst fancy. rewrite run_until_complete_settle, fetch_tweets_fancy_settle.
    unfold result_set. rewrite Hresp. simpl. rewrite Hbody. simpl.
    now rewrite Hfield. }
  assert (Hiff : forall ts, fancy = Ok ts
                            <-> Forall2 (fun r t => Tweet r = Ok t) records ts).
  { intros ts. rewrite Hf. apply comprehension_Forall2. }
  split; [exact Hiff|]. split.
  - intros ts Hts. apply Hiff in Hts. symmetry. eapply Forall2_length; eauto.
  - intros r e Hin Hr.
    rewrite Hf.
    destruct (comprehension Tweet records) as [ts|e'] eqn:Hfancy; [|now exists e'].
    exfalso. apply comprehension_Forall2 in Hfancy.
    clear - Hin Hr Hfancy.
    induction Hfancy as [|r' t records ts Hr' _ IH]; [destruct Hin|].
    destruct Hin as [->|Hin]; [congruence | auto].
Qed.

Lemma fetch_tweets_fancy_one_tweet_per_record_witness :
  Forall2 (fun r t => mock_Tweet r = Ok t) [JInt 2; JInt 3] [JInt 2; JInt 3].
Proof.
  exact (proj1 (proj1 (@fetch_tweets_fancy_one_tweet_per_record json mock_Tweet
                         mock_endpoint 0 "q2" fresh_world
                         (Response (Ok (JDict [("results", JList [JInt 2; JInt 3])])))
                         [("results", JList [JInt 2; JInt 3])] [JInt 2; JInt 3]
                         eq_refl eq_refl eq_refl) [JInt 2; JInt 3]) eq_refl).
Defined.

(** ** More on the loop *)

Section LoopMore.

Variable remote : string -> result response.
Variable A : Type.

Implicit Types (c : coro A) (cs : list (coro A)) (sched : list nat) (w : world).

(** Once the future of [gather] is done, later events change nothing. *)
Lemma run_loop_app sched more cs w r :
  fst (run_loop remote sched cs w) = Some r ->
  fst (run_loop remote (sched ++ more) cs w) = Some r.
Proof.
  revert cs w.
  induction sched as [|i sched IH]; intros cs w; simpl; [discriminate|].
  destruct (nth_error cs i) as [[a|e|R op k]|]; auto.
  destruct (k (answer remote op)) as [a|e|R' op' k']; auto.
  destruct (all_returned _); auto.
Qed.

(** An exception of the loop is the exception of a child. *)
Lemma run_loop_Raised_settle sched cs w e :
  fst (run_loop remote sched cs w) = Some (Raised e) ->
  exists i c, nth_error cs i = Some c /\ settle remote c = Raised e.
Proof.
  revert cs w.
  induction sched as [|i sched IH]; intros cs w; simpl; [discriminate|].
  destruct (nth_error cs i) as [[a|e0|R op k]|] eqn:Hi; try apply IH.
  assert (Hback : forall c',
             settle remote c' = settle remote (k (answer remote op)) ->
             (exists j c, nth_error (list_set i c' cs) j = Some c
                          /\ settle remote c = Raised e) ->
             exists j c, nth_error cs j = Some c /\ settle remote c = Raised e).
  { intros c' Hc' (j & c & Hj & Hc).
    destruct (Nat.eq_dec i j) as [<-|Hij].
    - rewrite (nth_error_list_set_eq _ _ _ Hi) in Hj. injection Hj as <-.
      exists i, (Await op k). split; [exact Hi|]. simpl. congruence.
    - rewrite nth_error_list_set_neq in Hj by assumption. eauto. }
  destruct (k (answer remote op)) as [a|e0|R' op' k'] eqn:Hk.
  - destruct (all_returned _); [discriminate|].
    intros H. apply (Hback (Return a) eq_refl). eapply IH; eauto.
  - simpl. intros [= <-]. exists i, (Await op k). split; [exact Hi|].
    simpl. now rewrite Hk.
  - intros H. apply (Hback (Await op' k') eq_refl). eapply IH; eauto.
Qed.

Lemma covered_cons i sched cs :
  covered remote sched cs -> covered remote (i :: sched) cs.
Proof.
  intros H j c Hj. specialize (H j c Hj). simpl.
  destruct (Nat.eq_dec i j); lia.
Qed.

Lemma covered_back i sched cs R (op : io_op R) (k : R -> coro A) :
  nth_error cs i = Some (Await op k) ->
  covered remote sched (list_set i (k (answer remote op)) cs) ->
  covered remote (i :: sched) cs.
Proof.
  intros Hi H j c Hj.
  destruct (Nat.eq_dec i j) as [<-|Hij].
  - rewrite Hi in Hj. injection Hj as <-.
    specialize (H i _ (nth_error_list_set_eq _ _ _ Hi)).
    rewrite count_occ_cons_eq by reflexivity. simpl. lia.
  - rewrite count_occ_cons_neq by assumption.
    apply H. now rewrite nth_error_list_set_neq.
Qed.

(** The loop gives a list only when every child has had all its events. *)
Lemma run_loop_Ok_covered sched cs w rs :
  fst (run_loop remote sched cs w) = Some (Ok rs) -> covered remote sched cs.
Proof.
  revert cs w.
  induction sched as [|i sched IH]; intros cs w; simpl; [discriminate|].
  destruct (nth_error cs i) as [[a|e0|R op k]|] eqn:Hi;
    try (intros H; apply covered_cons; eapply IH; exact H).
  destruct (k (answer remote op)) as [a|e0|R' op' k'] eqn:Hk.
  - destruct (all_returned (list_set i (Return a) cs)) as [rs'|] eqn:Hall.
    + intros _. eapply covered_back; [exact Hi|]. rewrite Hk.
      apply all_returned_Some in Hall. rewrite Hall.
      intros j c Hj. apply nth_error_In, in_map_iff in Hj as (x & <- & _).
      simpl. lia.
    + intros H. eapply covered_back; [exact Hi|]. rewrite Hk. eapply IH; eauto.
  - discriminate.
  - intros H. eapply covered_back; [exact Hi|]. rewrite Hk. eapply IH; eauto.
Qed.

End LoopMore.

(** ** More on the dispatcher *)

Section DispatcherMore.

Variable tweet : Type.
Variable Tweet : json -> result tweet.
Variable remote : string -> result response.

Implicit Types (queries : list string) (sched : list nat) (w : world).

(** A call with at least one query is the loop on its tasks. *)
Lemma collect_queries_run queries sched w :
  queries <> [] ->
  fst (collect_queries Tweet remote queries sched w)
  = fst (run_loop remote sched
           (map (fetch_tweets_fancy Tweet (sessions_created w)) queries)
           (emit (map (Request (sessions_created w)) queries)
              (snd (ClientSession w)))).
Proof.
  intros Hne. rewrite collect_queries_fst. now apply gather_tasks_result.
Qed.

Lemma collect_queries_nil sched w :
  fst (collect_queries Tweet remote [] sched w) = Some (Ok []).
Proof. reflexivity. Qed.

(** A fetch that succeeds waits for two events. *)
Lemma fetch_tweets_fancy_depth_ok (s : session) (url : string) (ts : list tweet) :
  result_set Tweet remote url = Ok ts ->
  depth remote (fetch_tweets_fancy Tweet s url) = 2.
Proof.
  unfold result_set, fetch_tweets_fancy. simpl.
  destruct (remote url) as [resp|e]; simpl; [|discriminate].
  destruct (json_body resp) as [body|e]; simpl; [|discriminate].
  destruct (result_bind _ _); reflexivity.
Qed.

Lemma covered_tasks_covers (s : session) queries (rss : list (list tweet)) sched :
  map (result_set Tweet remote) queries = map (@Ok _) rss ->
  covered remote sched (map (fetch_tweets_fancy Tweet s) queries) ->
  covers sched (List.length queries) = true.
Proof.
  intros Hok Hcov. unfold covers. apply forallb_forall. intros i Hi.
  apply in_seq in Hi. apply Nat.leb_le.
  destruct (nth_error queries i) as [q|] eqn:Hq.
  2:{ apply nth_error_None in Hq. lia. }
  assert (Hrs : exists ts, result_set Tweet remote q = Ok ts).
  { apply (map_nth_error (result_set Tweet remote)) in Hq.
    rewrite Hok in Hq. apply nth_error_In, in_map_iff in Hq as (ts & Hts & _).
    now exists ts. }
  destruct Hrs as (ts & Hts).
  rewrite <- (fetch_tweets_fancy_depth_ok s q Hts).
  apply Hcov. now apply map_nth_error.
Qed.

End DispatcherMore.

(** X7: whatever the order of arrival, complete or not, a list that
    [collect_queries] returns is the list of the ResultSets of the
    queries: as many lists as queries, the one at each position being
    what the fetch of the query at that position gives. *)
Theorem collect_queries_list_is_sound
  (tweet : Type) (Tweet : json -> result tweet) (remote : string -> result response)
  (queries : list string) (sched : list nat) (w : world)
  (responses : list (list tweet))
  (Hret : fst (collect_queries Tweet remote queries sched w) = Some (Ok responses)) :
  map (result_set Tweet remote) queries = map (@Ok _) responses
  /\ List.length responses = List.length queries.
Proof.
  assert (H : map (result_set Tweet remote) queries = map (@Ok _) responses).
  { destruct queries as [|q queries].
    - rewrite collect_queries_nil in Hret. now injection Hret as <-.
    - rewrite collect_queries_run in Hret by discriminate.
      apply run_loop_Ok_settle in Hret. now rewrite tasks_settle in Hret. }
  split; [exact H|].
  apply (f_equal (@List.length _)) in H. rewrite !length_map in H. auto.
Qed.

Lemma collect_queries_list_is_sound_witness :
  map (result_set mock_Tweet mock_endpoint) ["q3"; "q1"]
  = map (@Ok _) [[JInt 4]; [JInt 1]].
Proof.
  exact (proj1 (@collect_queries_list_is_sound json mock_Tweet mock_endpoint
                  ["q3"; "q1"] [1; 0; 0; 1] fresh_world [[JInt 4]; [JInt 1]] eq_refl)).
Defined.

(** X8: whatever the order of arrival, an exception that
    [collect_queries] raises is the exception with which the fetch of
    one of its queries ends; with no query the call raises nothing. *)
Theorem collect_queries_exception_is_sound
  (tweet : Type) (Tweet : json -> result tweet) (remote : string -> result response)
  (queries : list string) (sched : list nat) (w : world) (e : exn)
  (Hraise : fst (collect_queries Tweet remote queries sched w) = Some (Raised e)) :
  exists i q, nth_error queries i = Some q /\ result_set Tweet remote q = Raised e.
Proof.
  destruct queries as [|q0 queries].
  - rewrite collect_queries_nil in Hraise. discriminate.
  - rewrite collect_queries_run in Hraise by discriminate.
    apply run_loop_Raised_settle in Hraise as (i & c & Hi & Hc).
    rewrite nth_error_map in Hi.
    destruct (nth_error (q0 :: queries) i) as [q|] eqn:Hq; [|discriminate].
    simpl in Hi. injection Hi as <-.
    exists i, q. split; [exact Hq|].
    now rewrite <- (fetch_tweets_fancy_settle Tweet remote (sessions_created w)).
Qed.

Lemma collect_queries_exception_is_sound_witness :
  exists i q,
    nth_error ["q1"; "empty"] i = Some q
    /\ result_set mock_Tweet mock_endpoint q = Raised (KeyError "results").
Proof.
  exact (@collect_queries_exception_is_sound json mock_Tweet mock_endpoint
           ["q1"; "empty"] [1; 1] fresh_world (KeyError "results") eq_refl).
Defined.

(** X9: when all the fetches of a batch succeed, [collect_queries]
    returns exactly when every query has had both its events, the
    response and the body: until then the call stays suspended, however
    many of the other fetches are done. *)
Theorem collect_queries_waits_for_all
  (tweet : Type) (Tweet : json -> result tweet) (remote : string -> result response)
  (queries : list string) (result_sets : list (list tweet))
  (sched : list nat) (w : world)
  (Hok : map (result_set Tweet remote) queries = map (@Ok _) result_sets) :
  fst (collect_queries Tweet remote queries sched w)
  = if covers sched (List.length queries) then Some (Ok result_sets) else None.
Proof.
  destruct queries as [|q queries].
  - destruct result_sets; [reflexivity | discriminate].
  - rewrite collect_queries_run by discriminate.
    destruct (covers sched (List.length (q :: queries))) eqn:Hc.
    + apply run_loop_completes.
      * now rewrite tasks_settle.
      * now apply tasks_all_returned.
      * now apply tasks_covered.
    + destruct (fst (run_loop _ _ _ _)) as [r|] eqn:Hrun; [|reflexivity].
      exfalso.
      assert (Hr : r = Ok result_sets).
      { eapply run_loop_values; [|exact Hrun]. now rewrite tasks_settle. }
      subst r. apply run_loop_Ok_covered in Hrun.
      pose proof (covered_tasks_covers _ _ _ _ Hok Hrun) as Hc'.
      rewrite Hc' in Hc. discriminate.
Qed.

Lemma collect_queries_waits_for_all_witness :
  fst (collect_queries mock_Tweet mock_endpoint ["q1"; "q2"; "q3"]
         [0; 0; 1; 1; 2] fresh_world) = None.
Proof.
  exact (@collect_queries_waits_for_all json mock_Tweet mock_endpoint
           ["q1"; "q2"; "q3"] [[JInt 1]; [JInt 2; JInt 3]; [JInt 4]]
           [0; 0; 1; 1; 2] fresh_world eq_refl).
Defined.

(** X10: once a call of [collect_queries] has ended, with a list or
    with an exception, the events that arrive later change nothing to
    its outcome. *)
Theorem collect_queries_outcome_final
  (tweet : Type) (Tweet : json -> result tweet) (remote : string -> result response)
  (queries : list string) (sched more : list nat) (w : world)
  (outcome : result (list (list tweet)))
  (Hdone : fst (collect_queries Tweet remote queries sched w) = Some outcome) :
  fst (collect_queries Tweet remote queries (sched ++ more) w) = Some outcome.
Proof.
  destruct queries as [|q queries].
  - rewrite collect_queries_nil in *. exact Hdone.
  - rewrite collect_queries_run in * by discriminate.
    now apply run_loop_app.
Qed.

Lemma collect_queries_outcome_final_witness :
  fst (collect_queries mock_Tweet mock_endpoint ["q1"; "down"; "q2"]
         ([0; 1] ++ [2; 2; 0]) fresh_world)
  = Some (Raised (ClientError "connection refused")).
Proof.
  exact (@collect_queries_outcome_final json mock_Tweet mock_endpoint
           ["q1"; "down"; "q2"] [0; 1] [2; 2; 0] fresh_world
           (Raised (ClientError "connection refused")) eq_refl).
Defined.

(** X11: a refused connection ends the call at once: when the exchange
    of the query at position [i] fails and that is the first event to
    arrive, [collect_queries] raises its exception without an event of
    any other fetch. *)
Theorem collect_queries_fails_fast
  (tweet : Type) (Tweet : json -> result tweet) (remote : string -> result response)
  (queries : list string) (i : nat) (q : string) (e : exn)
  (rest : list nat) (w : world)
  (Hq : nth_error queries i = Some q)
  (Hdown : remote q = Raised e) :
  fst (collect_queries Tweet remote queries (i :: rest) w) = Some (Raised e).
Proof.
  assert (Hne : queries <> []) by (intros ->; destruct i; discriminate).
  rewrite collect_queries_run by assumption.
  simpl.
  rewrite (map_nth_error (fetch_tweets_fancy Tweet (sessions_created w)) i queries Hq).
  unfold fetch_tweets_fancy. simpl. rewrite Hdown. reflexivity.
Qed.

Lemma collect_queries_fails_fast_witness :
  fst (collect_queries mock_Tweet mock_endpoint ["q1"; "q2"; "down"] [2] fresh_world)
  = Some (Raised (ClientError "connection refused")).
Proof.
  exact (@collect_queries_fails_fast json mock_Tweet mock_endpoint
           ["q1"; "q2"; "down"] 2 "down" (ClientError "connection refused") []
           fresh_world eq_refl eq_refl).
Defined.

(** X12: whatever the order of arrival and whatever the fetches end
    with, a call of [collect_queries] makes one request for each query,
    in the order of the queries and duplicates included, on the one
    session it opens; the session is closed when the call has ended and
    is still open while the call is suspended. *)
Theorem collect_queries_requests_up_front
  (tweet : Type) (Tweet : json -> result tweet) (remote : string -> result response)
  (queries : list string) (sched : list nat) (w : world) :
  let s := sessions_created w in
  let out := collect_queries Tweet remote queries sched w in
  filter is_request (events_since w (snd out)) = map (Request s) queries
  /\ network_calls (events_since w (snd out)) = List.length queries
  /\ acquisitions (events_since w (snd out)) = 1
  /\ releases (events_since w (snd out))
     = match fst out with Some _ => 1 | None => 0 end.
Proof.
  intros s out.
  destruct (collect_queries_log Tweet remote queries sched w) as [_ Hlog].
  fold s out in Hlog. apply events_since_app in Hlog. rewrite Hlog.
  assert (Hreq : filter is_request (map (Request s) queries) = map (Request s) queries).
  { clear. induction queries as [|q queries IH]; simpl; [reflexivity | now rewrite IH]. }
  unfold network_calls, acquisitions, releases. simpl.
  rewrite !filter_app, Hreq, !filter_requests by reflexivity.
  destruct (fst out); simpl; rewrite ?app_nil_r, ?length_map; auto.
Qed.

(** ** The synchronous batch *)

Section SyncFacts.

Variable tweet : Type.
Variable Tweet : json -> result tweet.
Variable remote : string -> result response.

Lemma sync_all_fst (queries sent : list string) :
  fst (sync_all remote queries sent) = comprehension (sync_value remote) queries.
Proof.
  revert sent.
  induction queries as [|q queries IH]; intros sent; [reflexivity|].
  simpl. destruct (sync_value remote q) as [r|e]; simpl; [|reflexivity].
  rewrite <- (IH (sent ++ [q])).
  destruct (sync_all remote queries (sent ++ [q])) as [[rs|e] sent']; reflexivity.
Qed.

(** The requests of the synchronous batch stop with the first call that
    raises. *)
Lemma sync_all_stops (before after : list string) (q : string) (e : exn)
  (sent : list string) :
  Forall (fun q' => exists r, sync_value remote q' = Ok r) before ->
  sync_value remote q = Raised e ->
  sync_all remote (before ++ q :: after) sent = (Raised e, sent ++ before ++ [q]).
Proof.
  intros Hb Hq. revert sent.
  induction Hb as [|q' before (r & Hr) _ IH]; intros sent; simpl.
  - now rewrite Hq.
  - rewrite Hr, IH. now rewrite <- app_assoc.
Qed.

Lemma sync_all_sent (queries sent : list string) (rs : list json) :
  fst (sync_all remote queries sent) = Ok rs ->
  snd (sync_all remote queries sent) = sent ++ queries.
Proof.
  revert sent rs.
  induction queries as [|q queries IH]; intros sent rs; simpl.
  - now rewrite app_nil_r.
  - destruct (sync_value remote q) as [r|e]; simpl; [|discriminate].
    specialize (IH (sent ++ [q])).
    destruct (sync_all remote queries (sent ++ [q])) as [[rs'|e] sent'];
      simpl in *; [|discriminate].
    intros _. rewrite (IH rs' eq_refl). now rewrite <- app_assoc.
Qed.

(** The synchronous batch gives a list exactly when every fetch
    succeeds, and the list is then the ResultSets one after the other. *)
Lemma sync_batch_Ok (queries : list string) (xs : list tweet) :
  result_bind (comprehension (sync_value remote) queries) (chain_tweets Tweet) = Ok xs
  <-> exists rss, map (result_set Tweet remote) queries = map (@Ok _) rss
                  /\ xs = List.concat rss.
Proof.
  revert xs.
  induction queries as [|q queries IH]; intros xs.
  - simpl. split.
    + intros [= <-]. now exists [].
    + intros ([|? ?] & Hm & ->); [reflexivity | discriminate].
  - cbn [comprehension map]. rewrite result_set_sync_value.
    destruct (sync_value remote q) as [r|e]; cbn [result_bind].
    2:{ split; [discriminate|]. intros ([|? ?] & Hm & _); discriminate. }
    destruct (comprehension (sync_value remote) queries) as [rs|e];
      cbn [result_bind] in *.
    2:{ split; [discriminate|].
        intros ([|ts rss] & Hm & _); [discriminate|].
        injection Hm as _ Hm.
        assert (H : @Raised (list tweet) e = Ok (List.concat rss))
          by (apply IH; eauto).
        discriminate. }
    cbn [chain_tweets].
    destruct (result_bind (iterate r) (fun items => comprehension Tweet items))
      as [ts|e] eqn:Hq; cbn [result_bind].
    2:{ split.
        - destruct (iterate r) as [items|e0]; cbn [result_bind] in *;
            [rewrite Hq|]; discriminate.
        - intros ([|? ?] & Hm & _); discriminate. }
    assert (Hh : result_bind (iterate r)
                   (fun items =>
                      result_bind (comprehension Tweet items)
                        (fun ts0 =>
                           result_bind (chain_tweets Tweet rs)
                             (fun ts' => Ok (ts0 ++ ts'))))
                 = result_bind (chain_tweets Tweet rs) (fun ts' => Ok (ts ++ ts'))).
    { destruct (iterate r) as [items|e0]; cbn [result_bind] in *; [|discriminate].
      now rewrite Hq. }
    rewrite Hh. clear Hh.
    destruct (chain_tweets Tweet rs) as [ts'|e] eqn:Hrest; cbn [result_bind].
    + split.
      * intros [= <-].
        destruct (proj1 (IH ts') eq_refl) as (rss & Hm & ->).
        exists (ts :: rss). simpl. now rewrite Hm.
      * intros ([|ts0 rss] & Hm & ->); [discriminate|].
        injection Hm as <- Hm. simpl.
        assert (H : Ok ts' = Ok (List.concat rss)) by (apply IH; eauto).
        congruence.
    + split; [discriminate|].
      intros ([|ts0 rss] & Hm & _); [discriminate|].
      injection Hm as _ Hm.
      assert (H : @Raised (list tweet) e = Ok (List.concat rss))
        by (apply IH; eauto).
      discriminate.
Qed.

End SyncFacts.

Lemma tweets_sync_batch_cell_fst
  (tweet : Type) (Tweet : json -> result tweet) (remote : string -> result response)
  (queries sent : list string) :
  fst (tweets_sync_batch_cell Tweet remote queries sent)
  = result_bind (comprehension (sync_value remote) queries) (chain_tweets Tweet).
Proof.
  unfold tweets_sync_batch_cell. rewrite <- (sync_all_fst remote queries sent).
  destruct (sync_all remote queries sent); reflexivity.
Qed.

(** X13: the cell that fetches the queries one after the other and the
    cell that fetches them at once through [collect_queries] agree, when
    the endpoint answers the two clients alike and every fetch gets its
    events: one gives a list of tweets exactly when the other does, and
    it is the same list; one raises exactly when the other does. *)
Theorem sync_and_concurrent_batches_agree
  (tweet : Type) (Tweet : json -> result tweet) (remote : string -> result response)
  (queries sent : list string) (sched : list nat) (w : world)
  (Hsched : covers sched (List.length queries) = true) :
  (forall xs,
      fst (tweets_sync_batch_cell Tweet remote queries sent) = Ok xs
      <-> fst (res_cell Tweet remote queries sched w) = Some (Ok xs))
  /\ ((exists e, fst (tweets_sync_batch_cell Tweet remote queries sent) = Raised e)
      <-> (exists e, fst (res_cell Tweet remote queries sched w) = Some (Raised e))).
Proof.
  assert (Hiff : forall xs,
             fst (tweets_sync_batch_cell Tweet remote queries sent) = Ok xs
             <-> fst (res_cell Tweet remote queries sched w) = Some (Ok xs)).
  { intros xs. rewrite tweets_sync_batch_cell_fst, sync_batch_Ok, res_cell_fst.
    split.
    - intros (rss & Hm & ->).
      assert (Hc : fst (collect_queries Tweet remote queries sched w) = Some (Ok rss)).
      { destruct queries as [|q queries].
        - destruct rss; [reflexivity | discriminate].
        - rewrite collect_queries_run by discriminate.
          apply run_loop_completes.
          + now rewrite tasks_settle.
          + now apply tasks_all_returned.
          + now apply tasks_covered. }
      now rewrite Hc.
    - destruct (fst (collect_queries Tweet remote queries sched w))
        as [[responses|e]|] eqn:Hc; try discriminate.
      intros [= <-]. exists responses. split; [|reflexivity].
      destruct queries as [|q queries].
      + rewrite collect_queries_nil in Hc. now injection Hc as <-.
      + rewrite collect_queries_run in Hc by discriminate.
        apply run_loop_Ok_settle in Hc. now rewrite tasks_settle in Hc. }
  split; [exact Hiff|].
  destruct (collect_queries_exits Tweet remote queries sched w Hsched) as (out & Hout).
  pose proof (res_cell_fst Tweet remote queries sched w) as Hres.
  rewrite Hout in Hres.
  destruct (fst (tweets_sync_batch_cell Tweet remote queries sent)) as [xs|e] eqn:Hs.
  - pose proof (proj1 (Hiff xs) eq_refl) as Hr.
    split; intros (e & He); [discriminate | congruence].
  - split; intros _; [|now exists e].
    destruct out as [responses|e'].
    + exfalso. pose proof (proj2 (Hiff (List.concat responses)) Hres). discriminate.
    + now exists e'.
Qed.

Lemma sync_and_concurrent_batches_agree_witness :
  fst (tweets_sync_batch_cell mock_Tweet mock_endpoint ["q1"; "q2"; "q3"] [])
  = Ok [JInt 1; JInt 2; JInt 3; JInt 4]
  <-> fst (res_cell mock_Tweet mock_endpoint ["q1"; "q2"; "q3"] [2; 2; 1; 0; 0; 1]
             fresh_world)
      = Some (Ok [JInt 1; JInt 2; JInt 3; JInt 4]).
Proof.
  exact (proj1 (@sync_and_concurrent_batches_agree json mock_Tweet mock_endpoint
                  ["q1"; "q2"; "q3"] [] [2; 2; 1; 0; 0; 1] fresh_world eq_refl)
           [JInt 1; JInt 2; JInt 3; JInt 4]).
Defined.

(** X14: the synchronous batch stops at the first call of [sync_tweets]
    that raises: it raises that exception, it has requested the queries
    up to that one, in their order, and none of those after it. *)
Theorem tweets_sync_batch_stops_at_first_failure
  (tweet : Type) (Tweet : json -> result tweet) (remote : string -> result response)
  (before after sent : list string) (q : string) (e : exn)
  (Hbefore : Forall (fun q' => exists r, sync_value remote q' = Ok r) before)
  (Hq : sync_value remote q = Raised e) :
  tweets_sync_batch_cell Tweet remote (before ++ q :: after) sent
  = (Raised e, sent ++ before ++ [q]).
Proof.
  unfold tweets_sync_batch_cell.
  now rewrite (@sync_all_stops remote before after q e sent Hbefore Hq).
Qed.

Lemma tweets_sync_batch_stops_at_first_failure_witness :
  tweets_sync_batch_cell mock_Tweet mock_endpoint (["q1"] ++ "down" :: ["q2"; "q3"]) []
  = (Raised (ClientError "connection refused"), [] ++ ["q1"] ++ ["down"]).
Proof.
  refine (@tweets_sync_batch_stops_at_first_failure json mock_Tweet mock_endpoint
            ["q1"] ["q2"; "q3"] [] "down" (ClientError "connection refused") _ eq_refl).
  constructor; [|constructor].
  exists (JList [JInt 1]). reflexivity.
Defined.

(** X15: when the synchronous batch returns a list it has requested
    every query once, in the order of the queries. *)
Theorem tweets_sync_batch_requests_all
  (tweet : Type) (Tweet : json -> result tweet) (remote : string -> result response)
  (queries sent : list string) (xs : list tweet)
  (Hret : fst (tweets_sync_batch_cell Tweet remote queries sent) = Ok xs) :
  snd (tweets_sync_batch_cell Tweet remote queries sent) = sent ++ queries.
Proof.
  unfold tweets_sync_batch_cell in *.
  pose proof (sync_all_sent remote queries sent) as Hsent.
  destruct (sync_all remote queries sent) as [[rs|e] sent']; simpl in *.
  - now apply (Hsent rs).
  - discriminate.
Qed.

Lemma tweets_sync_batch_requests_all_witness :
  snd (tweets_sync_batch_cell mock_Tweet mock_endpoint ["q1"; "q2"] ["q3"])
  = ["q3"] ++ ["q1"; "q2"].
Proof.
  exact (@tweets_sync_batch_requests_all json mock_Tweet mock_endpoint
           ["q1"; "q2"] ["q3"] [JInt 1; JInt 2; JInt 3] eq_refl).
Defined.
